(** * Segmentation-tracking evaluation (scalabel/eval/mots.py)

    A shallow embedding of [parse_objects], [acc_single_video_mots] and the
    accumulation part of [evaluate_seg_track], followed by the properties the
    specification states about them.

    Conventions.
    - Python exceptions are values of [exn]; a function that can raise returns
      a [result].
    - numpy float arrays are lists of [option Q]: [Some q] is the double
      with the rational value [q], [None] is NaN; a float operation gives
      [fl] of the exact result, where [fl] rounds to the nearest double, and
      comparisons of doubles are exact.
    - The code of other packages (pycocotools, motmetrics) and of modules of
      scalabel that are not part of the sources at hand is collected in the
      classes [MaskTypes] and [Externals]; every theorem holds for each
      instance of them; [Sample] gives an instance to compute with, in which
      the arithmetic is exact, and [Doubles] one that rounds to 53 bits. *)

From Stdlib Require Import String List ZArith QArith Bool Arith Lia Lqa.
From Stdlib Require Import Permutation Sorted.
Import ListNotations.
Local Open Scope string_scope.
Local Open Scope list_scope.
Local Open Scope nat_scope.

(** ** Exceptions and results *)

Inductive exn : Type :=
| AssertionError (msg : string)
| KeyError (msg : string)
| IndexError
| ValueError
| OverflowError.

Inductive result (A : Type) : Type :=
| Ok (a : A)
| Err (e : exn).
Arguments Ok {A} a.
Arguments Err {A} e.

Definition bind {A B : Type} (r : result A) (k : A -> result B) : result B :=
  match r with
  | Ok a => k a
  | Err e => Err e
  end.

Notation "'let*' x ':=' r 'in' k" := (bind r (fun x => k))
  (at level 10, x pattern, r at level 100, k at level 200).

Definition is_ok {A : Type} (r : result A) : bool :=
  match r with Ok _ => true | Err _ => false end.

(** The error names of the specification, as the exceptions the code raises.
    [assert image_size is not None, "Requires ImageSize ..."] is the
    configuration error, the two message-less [assert]s on lengths and frame
    indices are the shape mismatch, and the [KeyError] is the unknown
    category. *)
Definition ConfigError : exn :=
  AssertionError "Requires ImageSize for Poly2D conversion to RLE".
Definition ShapeMismatchError : exn := AssertionError "".
Definition UnknownCategoryError (category : string) : exn :=
  KeyError ("Unknown category: " ++ category).

(** [monadic left fold]: a Python [for] loop whose body may raise. *)
Fixpoint foldM {A S : Type} (body : S -> A -> result S) (xs : list A) (s : S)
  : result S :=
  match xs with
  | [] => Ok s
  | x :: xs' => let* s' := body s x in foldM body xs' s'
  end.

(** A list comprehension / sequential map whose function may raise. *)
Fixpoint mapM {A B : Type} (f : A -> result B) (xs : list A)
  : result (list B) :=
  match xs with
  | [] => Ok []
  | x :: xs' =>
      let* y := f x in
      let* ys := mapM f xs' in
      Ok (y :: ys)
  end.

(** ** Float cells and matrices *)

Definition cell : Type := option Q.
Definition nan : cell := None.

Definition isfinite (c : cell) : bool :=
  match c with Some _ => true | None => false end.

Definition Qltb (a b : Q) : bool := negb (Qle_bool b a).

(** A two-dimensional numpy array with its shape: a matrix with no rows still
    has a column count. *)
Record Matrix : Type := mkMatrix {
  nrows : nat;
  ncols : nat;
  cells : list (list cell)
}.

Definition shape (M : Matrix) : nat * nat := (nrows M, ncols M).

(** [np.full((r, c), np.nan)] *)
Definition full_nan (r c : nat) : Matrix :=
  mkMatrix r c (repeat (repeat nan c) r).

(** [M[m, n]]; [None] when the index is out of range (numpy raises
    IndexError). *)
Definition get (M : Matrix) (m n : nat) : option cell :=
  match nth_error (cells M) m with
  | Some row => nth_error row n
  | None => None
  end.

(** Boolean-mask indexing [xs[mask]] on arrays of the same length. *)
Fixpoint select {A : Type} (xs : list A) (mask : list bool) : list A :=
  match xs, mask with
  | x :: xs', b :: mask' =>
      if b then x :: select xs' mask' else select xs' mask'
  | _, _ => []
  end.

(** [M[:, mask]] *)
Definition select_columns (M : Matrix) (mask : list bool) : Matrix :=
  mkMatrix (nrows M)
           (length (select (repeat tt (ncols M)) mask))
           (map (fun row => select row mask) (cells M)).

(** [A.T] of an array with [r] rows and [c] columns. *)
Definition transpose {A : Type} (d : A) (c : nat) (rows : list (list A))
  : list (list A) :=
  map (fun j => map (fun row => nth j row d) rows) (seq 0 c).

(** ** The accumulator

    [mm.MOTAccumulator(auto_id=True)] is modelled by the sequence of the
    [update] calls it has received (frame ids are the positions in that
    sequence); every quantity motmetrics derives is a function of it. *)

Record UpdateCall : Type := mkUpdate {
  upd_gt_ids : list Z;
  upd_pred_ids : list Z;
  upd_distances : Matrix
}.

Definition MOTAccumulator : Type := list UpdateCall.

Definition new_accumulator : MOTAccumulator := [].

Definition update (acc : MOTAccumulator) (gt_ids pred_ids : list Z)
  (distances : Matrix) : MOTAccumulator :=
  acc ++ [mkUpdate gt_ids pred_ids distances].

(** ** Labels, frames, configuration *)

Class MaskTypes : Type := {
  RLE : Type;        (* run-length encoded mask *)
  Poly2D : Type;     (* polygon outline *)
  ImageSize : Type;  (* canvas size *)
  Mask : Type;       (* rasterized bitmap *)
  Categories : Type  (* category hierarchy of a Config *)
}.

Section Types.
Context {MT : MaskTypes}.

(** [label_id] is the id of the label, a string. *)
Record Label : Type := mkLabel {
  label_id : string;
  category : string;
  rle : option RLE;
  poly2d : option (list Poly2D);
  crowd : bool;
  ignored : bool
}.

Record Frame : Type := mkFrame {
  frameIndex : option Z;
  labels : option (list Label)
}.

Definition Video : Type := list Frame.

Record Config : Type := mkConfig {
  categories : Categories;
  imageSize : option ImageSize
}.

(** Modelled from the spec: [check_crowd] and [check_ignored] live in
    label/utils.py, which is not among the sources; the spec says that labeled
    objects carry crowd and ignore flags, and these read them. *)
Definition check_crowd (obj : Label) : bool := crowd obj.
Definition check_ignored (obj : Label) : bool := ignored obj.

End Types.

(** What numpy makes of one id in [np.array(ids, dtype=np.int32)]: an
    integer, or a ValueError for a string that is no integer, or an
    OverflowError for an integer that does not fit. *)
Inductive int32_result : Type :=
| Int32 (z : Z)
| NotAnInteger
| OutOfRange.

(** Functions of other modules and packages, and the arithmetic. *)
Class Externals {MT : MaskTypes} : Type := {
  (* IEEE 754: the double nearest to a rational *)
  fl : Q -> Q;
  (* numpy: conversion of an id to int32 *)
  np_int32 : string -> int32_result;
  (* multiprocessing: which exception [Pool.starmap] re-raises when the
     tasks have failed with the exceptions of the list, the one that
     arrives first *)
  pool_pick : list exn -> exn;
  (* label/transforms.py *)
  poly2ds_to_mask : ImageSize -> list Poly2D -> Mask;
  mask_to_rle : Mask -> RLE;
  (* pycocotools: overlap of one detection [dt] with one [gt]; with
     [iscrowd] the intersection is divided by the area of [dt]
     (intersection over foreground), otherwise by the union *)
  mask_iou : RLE -> RLE -> bool -> Q;
  (* motmetrics: the assignment solver, as the list [zip(le, ri)] *)
  linear_sum_assignment : Matrix -> list (nat * nat);
  (* eval/mot.py: rewrites label ids, frame by frame *)
  label_ids_to_int : list Frame -> list Frame;
  (* label/utils.py: names of [get_leaf_categories(config.categories)] *)
  leaf_category_names : Categories -> list string;
  (* eval/mot.py: aggregate_accs, evaluate_single_class, generate_results *)
  TrackResult : Type;
  render_results : Categories -> list (list MOTAccumulator) -> TrackResult
}.

Section Mots.
Context {MT : MaskTypes} {EX : Externals}.

(** ** parse_objects *)

(** [category in classes] *)
Definition in_classes (c : string) (classes : list string) : bool :=
  existsb (String.eqb c) classes.

(** [classes.index(category)]: position of the first occurrence. *)
Fixpoint index (c : string) (classes : list string) : nat :=
  match classes with
  | [] => 0
  | x :: rest => if String.eqb c x then 0 else S (index c rest)
  end.

(** The four lists [parse_objects] builds, with ids of type [Id]: strings
    while the loop runs, integers in what is returned. *)
Record ParsedOf (Id : Type) : Type := mkParsed {
  p_rles : list RLE;
  p_labels : list nat;
  p_ids : list Id;
  p_ignore_rles : list RLE
}.
Arguments mkParsed {Id} _ _ _ _.
Arguments p_rles {Id} _.
Arguments p_labels {Id} _.
Arguments p_ids {Id} _.
Arguments p_ignore_rles {Id} _.

Definition Lists : Type := ParsedOf string.
Definition Parsed : Type := ParsedOf Z.

Definition empty_parsed {Id : Type} : ParsedOf Id := mkParsed [] [] [] [].

(** Lines 52-60: the mask of an object. [Ok None] is the [continue]. *)
Definition resolve_rle (image_size : option ImageSize) (obj : Label)
  : result (option RLE) :=
  match rle obj with
  | Some r => Ok (Some r)
  | None =>
      match poly2d obj with
      | Some poly =>
          match image_size with
          | None => Err ConfigError
          | Some sz => Ok (Some (mask_to_rle (poly2ds_to_mask sz poly)))
          end
      | None => Ok None
      end
  end.

(** Lines 61-71: what happens to an object whose mask is [r]. *)
Definition classify (classes : list string) (ignore_unknown_cats : bool)
  (st : Lists) (obj : Label) (r : RLE) : result Lists :=
  if in_classes (category obj) classes then
    if check_crowd obj || check_ignored obj then
      Ok (mkParsed (p_rles st) (p_labels st) (p_ids st)
                   (p_ignore_rles st ++ [r]))
    else
      Ok (mkParsed (p_rles st ++ [r])
                   (p_labels st ++ [index (category obj) classes])
                   (p_ids st ++ [label_id obj])
                   (p_ignore_rles st))
  else
    if negb ignore_unknown_cats then
      Err (UnknownCategoryError (category obj))
    else Ok st.

(** The body of the loop over [objects]. *)
Definition parse_object (classes : list string) (ignore_unknown_cats : bool)
  (image_size : option ImageSize) (st : Lists) (obj : Label)
  : result Lists :=
  let* m := resolve_rle image_size obj in
  match m with
  | Some r => classify classes ignore_unknown_cats st obj r
  | None => Ok st
  end.

(** Lines 50-71: the loop. *)
Definition parse_loop (objects : list Label) (classes : list string)
  (ignore_unknown_cats : bool) (image_size : option ImageSize)
  : result Lists :=
  foldM (parse_object classes ignore_unknown_cats image_size)
        objects empty_parsed.

(** Line 73, one element of [np.array(ids, dtype=np.int32)]. *)
Definition to_int32 (s : string) : result Z :=
  match np_int32 s with
  | Int32 z => Ok z
  | NotAnInteger => Err ValueError
  | OutOfRange => Err OverflowError
  end.

(** Lines 72-74. The labels are positions of the class list and fit. *)
Definition to_arrays (st : Lists) : result Parsed :=
  let* ids_arr := mapM to_int32 (p_ids st) in
  Ok (mkParsed (p_rles st) (p_labels st) ids_arr (p_ignore_rles st)).

Definition parse_objects (objects : list Label) (classes : list string)
  (ignore_unknown_cats : bool) (image_size : option ImageSize)
  : result Parsed :=
  let* st := parse_loop objects classes ignore_unknown_cats image_size in
  to_arrays st.

(** ** acc_single_video_mots *)

(** [labels == i] *)
Definition class_mask (labels : list nat) (i : nat) : list bool :=
  map (Nat.eqb i) labels.

(** pycocotools' [iou(dt, gt, iscrowd)]: one row per [dt], one column per
    [gt]. *)
Definition iou (dt gt : list RLE) (iscrowd : list bool) : list (list Q) :=
  map (fun d => map (fun gc => mask_iou d (fst gc) (snd gc))
                    (combine gt iscrowd)) dt.

(** Lines 136-139: the double [1 - iou], then NaN where it exceeds the
    double [1 - iou_thr]. *)
Definition threshold (iou_thr : Q) (u : Q) : cell :=
  let d := fl (1 - u)%Q in
  if Qltb (fl (1 - iou_thr)%Q) d then nan else Some d.

(** Lines 126-139. *)
Definition build_distances (iou_thr : Q) (gt_rles_c pred_rles_c : list RLE)
  : Matrix :=
  if Nat.eqb (length gt_rles_c) 0 && negb (Nat.eqb (length pred_rles_c) 0)
  then full_nan 0 (length pred_rles_c)
  else if negb (Nat.eqb (length gt_rles_c) 0)
          && Nat.eqb (length pred_rles_c) 0
  then full_nan (length gt_rles_c) 0
  else
    let ious_c :=
      transpose 0%Q (length gt_rles_c)
        (iou pred_rles_c gt_rles_c (repeat false (length gt_rles_c))) in
    mkMatrix (length gt_rles_c) (length pred_rles_c)
             (map (map (threshold iou_thr)) ious_c).

(** [fps[n] = False]; the index is in range wherever this is used, because
    [distances[m, n]] has been read just before. *)
Fixpoint set_false (n : nat) (fps : list bool) : list bool :=
  match fps, n with
  | [], _ => []
  | _ :: rest, O => false :: rest
  | b :: rest, S n' => b :: set_false n' rest
  end.

(** Lines 144-146, one iteration. *)
Definition mark_matched (distances : Matrix) (fps : list bool)
  (mn : nat * nat) : result (list bool) :=
  match get distances (fst mn) (snd mn) with
  | None => Err IndexError
  | Some c => if isfinite c then Ok (set_false (snd mn) fps) else Ok fps
  end.

(** Line 153: [np.greater(iofs, ignore_iof_thr).any(axis=1)] *)
Definition ignores_of (ignore_iof_thr : Q) (iofs : list (list Q))
  : list bool :=
  map (existsb (Qltb ignore_iof_thr)) iofs.

(** Line 155: [np.logical_not(np.logical_and(fps, ignores))] *)
Fixpoint valid_inds_of (fps ignores : list bool) : list bool :=
  match fps, ignores with
  | f :: fps', g :: ignores' => negb (f && g) :: valid_inds_of fps' ignores'
  | _, _ => []
  end.

(** Lines 142-155: the mask of the predictions that survive. *)
Definition ignore_valid_inds (ignore_iof_thr : Q) (distances : Matrix)
  (pred_rles_c gt_ignores : list RLE) : result (list bool) :=
  let fps0 := repeat true (length pred_rles_c) in
  let* fps :=
    foldM (mark_matched distances) (linear_sum_assignment distances) fps0 in
  let iofs :=
    iou pred_rles_c gt_ignores (repeat true (length gt_ignores)) in
  Ok (valid_inds_of fps (ignores_of ignore_iof_thr iofs)).

(** Lines 140-157. *)
Definition ignore_filter (ignore_iof_thr : Q) (distances : Matrix)
  (pred_rles_c gt_ignores : list RLE) (pred_ids_c : list Z)
  : result (list Z * Matrix) :=
  if Nat.ltb 0 (length gt_ignores) && Nat.ltb 0 (length pred_rles_c) then
    let* valid_inds :=
      ignore_valid_inds ignore_iof_thr distances pred_rles_c gt_ignores in
    Ok (select pred_ids_c valid_inds, select_columns distances valid_inds)
  else Ok (pred_ids_c, distances).

Definition shape_eqb (s t : nat * nat) : bool :=
  Nat.eqb (fst s) (fst t) && Nat.eqb (snd s) (snd t).

(** Lines 114-159 up to the call: what is handed to [accs[i].update], or
    [None] when the call is skipped. *)
Definition class_update (iou_thr ignore_iof_thr : Q) (gt pred : Parsed)
  (i : nat) : result (option UpdateCall) :=
  let gt_inds := class_mask (p_labels gt) i in
  let pred_inds := class_mask (p_labels pred) i in
  let gt_rles_c := select (p_rles gt) gt_inds in
  let pred_rles_c := select (p_rles pred) pred_inds in
  let gt_ids_c := select (p_ids gt) gt_inds in
  let pred_ids_c := select (p_ids pred) pred_inds in
  if Nat.eqb (length gt_rles_c) 0 && Nat.eqb (length pred_rles_c) 0 then
    Ok None
  else
    let distances := build_distances iou_thr gt_rles_c pred_rles_c in
    let* filtered :=
      ignore_filter ignore_iof_thr distances pred_rles_c
                    (p_ignore_rles gt) pred_ids_c in
    if negb (shape_eqb (shape (snd filtered)) (0, 0)) then
      Ok (Some (mkUpdate gt_ids_c (fst filtered) (snd filtered)))
    else Ok None.

(** [accs[i] = f(accs[i])]. In the loop [i] ranges over the classes and
    [accs] has one accumulator per class, so the index is in range. *)
Fixpoint update_at {A : Type} (i : nat) (f : A -> A) (xs : list A) : list A :=
  match xs, i with
  | [], _ => []
  | x :: rest, O => f x :: rest
  | x :: rest, S i' => x :: update_at i' f rest
  end.

(** The body of [for i in range(num_classes)]. *)
Definition acc_class (iou_thr ignore_iof_thr : Q) (gt pred : Parsed)
  (accs : list MOTAccumulator) (i : nat) : result (list MOTAccumulator) :=
  let* call := class_update iou_thr ignore_iof_thr gt pred i in
  match call with
  | Some c =>
      Ok (update_at i
            (fun acc =>
               update acc (upd_gt_ids c) (upd_pred_ids c) (upd_distances c))
            accs)
  | None => Ok accs
  end.

Definition labels_or_empty (f : Frame) : list Label :=
  match labels f with Some ls => ls | None => [] end.

Definition frameIndex_eqb (a b : option Z) : bool :=
  match a, b with
  | Some x, Some y => Z.eqb x y
  | None, None => true
  | _, _ => false
  end.

(** Lines 100-159: the body of [for gt, result in zip(gts, results)]. *)
Definition acc_frame (classes : list string) (iou_thr ignore_iof_thr : Q)
  (ignore_unknown_cats : bool) (image_size : option ImageSize)
  (accs : list MOTAccumulator) (fr : Frame * Frame)
  : result (list MOTAccumulator) :=
  let gt := fst fr in
  let res := snd fr in
  if negb (frameIndex_eqb (frameIndex gt) (frameIndex res)) then
    Err ShapeMismatchError
  else
    let* gt_parsed :=
      parse_objects (labels_or_empty gt) classes ignore_unknown_cats
                    image_size in
    let* pred_parsed :=
      parse_objects (labels_or_empty res) classes ignore_unknown_cats
                    image_size in
    foldM (acc_class iou_thr ignore_iof_thr gt_parsed pred_parsed)
          (seq 0 (length classes)) accs.

Definition get_frame_index (frame : Frame) : Z :=
  match frameIndex frame with Some k => k | None => 0%Z end.

(** [sorted(frames, key=get_frame_index)], which is stable. *)
Fixpoint insert_frame (f : Frame) (fs : list Frame) : list Frame :=
  match fs with
  | [] => [f]
  | g :: rest =>
      if Z.leb (get_frame_index f) (get_frame_index g) then f :: g :: rest
      else g :: insert_frame f rest
  end.

Fixpoint sorted (fs : list Frame) : list Frame :=
  match fs with
  | [] => []
  | f :: rest => insert_frame f (sorted rest)
  end.

(** [label_ids_to_int] rewrites the ids of the ground-truth frames in place;
    the frames of [results] are taken to be other objects than those of
    [gts]. *)
Definition acc_single_video_mots (gts results : list Frame)
  (classes : list string) (iou_thr ignore_iof_thr : Q)
  (ignore_unknown_cats : bool) (image_size : option ImageSize)
  : result (list MOTAccumulator) :=
  if negb (Nat.eqb (length gts) (length results)) then Err ShapeMismatchError
  else
    let num_classes := length classes in
    let gts1 := sorted gts in
    let results1 := sorted results in
    let accs := repeat new_accumulator num_classes in
    let gts2 := label_ids_to_int gts1 in
    foldM (acc_frame classes iou_thr ignore_iof_thr ignore_unknown_cats
                     image_size)
          (combine gts2 results1) accs.

(** ** evaluate_seg_track *)

(** A callable of type [VidFunc] together with the default value its
    signature declares for [iou_thr], which applies when a caller leaves the
    argument out. *)
Record VidFunc : Type := mkVidFunc {
  vid_call : Video -> Video -> list string -> Q -> Q -> bool ->
             option ImageSize -> result (list MOTAccumulator);
  vid_default_iou_thr : Q
}.

(** [def acc_single_video_mots(..., iou_thr: float = 0.5, ...)] *)
Definition acc_single_video_mots_func : VidFunc :=
  mkVidFunc acc_single_video_mots (1 # 2)%Q.

(** Lines 202-208: [partial(acc_single_video, classes=..., ignore_iof_thr=...,
    ignore_unknown_cats=..., image_size=...)] applied to [(gt, result)]. *)
Definition partial_acc_single_video (acc_single_video : VidFunc)
  (classes : list string) (ignore_iof_thr : Q) (ignore_unknown_cats : bool)
  (image_size : option ImageSize) (gr : Video * Video)
  : result (list MOTAccumulator) :=
  vid_call acc_single_video (fst gr) (snd gr) classes
           (vid_default_iou_thr acc_single_video)
           ignore_iof_thr ignore_unknown_cats image_size.

(** The exceptions and the values of a list of outcomes. *)
Fixpoint errors_of {A : Type} (rs : list (result A)) : list exn :=
  match rs with
  | [] => []
  | Ok _ :: rest => errors_of rest
  | Err e :: rest => e :: errors_of rest
  end.

Fixpoint values_of {A : Type} (rs : list (result A)) : list A :=
  match rs with
  | [] => []
  | Ok a :: rest => a :: values_of rest
  | Err _ :: rest => values_of rest
  end.

(** [Pool.starmap]: the results in the order of the tasks when every task
    returns; otherwise the exception of one of the tasks that failed, the
    first to arrive, which [pool_pick] stands for. *)
Definition starmap {A B : Type} (f : A -> result B) (xs : list A)
  : result (list B) :=
  let rs := map f xs in
  match errors_of rs with
  | [] => Ok (values_of rs)
  | e :: es => Err (pool_pick (e :: es))
  end.

(** Lines 199-223. *)
Definition video_accs_of (acc_single_video : VidFunc) (gts results : list Video)
  (class_names : list string) (iou_thr ignore_iof_thr : Q)
  (ignore_unknown_cats : bool) (image_size : option ImageSize) (nproc : Z)
  : result (list (list MOTAccumulator)) :=
  if Z.ltb 1 nproc then
    starmap (partial_acc_single_video acc_single_video class_names
               ignore_iof_thr ignore_unknown_cats image_size)
            (combine gts results)
  else
    mapM (fun gr =>
            vid_call acc_single_video (fst gr) (snd gr) class_names iou_thr
                     ignore_iof_thr ignore_unknown_cats image_size)
         (combine gts results).

Definition evaluate_seg_track (acc_single_video : VidFunc)
  (gts results : list Video) (config : Config) (iou_thr ignore_iof_thr : Q)
  (ignore_unknown_cats : bool) (nproc : Z) : result TrackResult :=
  if negb (Nat.eqb (length gts) (length results)) then Err ShapeMismatchError
  else
    let class_names := leaf_category_names (categories config) in
    let image_size := imageSize config in
    let* video_accs :=
      video_accs_of acc_single_video gts results class_names iou_thr
                    ignore_iof_thr ignore_unknown_cats image_size nproc in
    Ok (render_results (categories config) video_accs).

End Mots.

Arguments mkParsed {MT Id} _ _ _ _.
Arguments p_rles {MT Id} _.
Arguments p_labels {MT Id} _.
Arguments p_ids {MT Id} _.
Arguments p_ignore_rles {MT Id} _.

(** ** The words of the specification

    Predicates that the statements below compare the code with. *)

Section SpecWords.
Context {MT : MaskTypes} {EX : Externals}.

(** The pair [mn] of the assignment gives column [n] a finite cost. *)
Definition finite_pair (distances : Matrix) (n : nat) (mn : nat * nat)
  : bool :=
  Nat.eqb (snd mn) n
  && match get distances (fst mn) (snd mn) with
     | Some c => isfinite c
     | None => false
     end.

(** Prediction [n] is matched with finite cost by the assignment. *)
Definition assigned_finite (distances : Matrix) (n : nat) : bool :=
  existsb (finite_pair distances n) (linear_sum_assignment distances).

(** The intersection over foreground of the prediction mask [rp] with some
    ignore region exceeds the threshold. *)
Definition in_ignore_region (ignore_iof_thr : Q) (gt_ignores : list RLE)
  (rp : RLE) : bool :=
  existsb (fun r => Qltb ignore_iof_thr (mask_iou rp r true)) gt_ignores.

(** Two states of [parse_objects] with the same detections, and two results
    that are the same exception or have the same detections. *)
Definition same_detections (a b : Lists) : Prop :=
  p_rles a = p_rles b /\ p_labels a = p_labels b /\ p_ids a = p_ids b.

Definition agree (r1 r2 : result Lists) : Prop :=
  match r1, r2 with
  | Ok a, Ok b => same_detections a b
  | Err e1, Err e2 => e1 = e2
  | _, _ => False
  end.

(** A prediction that is crowd or ignored, of a known category, and whose
    mask can be resolved. *)
Definition discarded_prediction (classes : list string)
  (image_size : option ImageSize) (obj : Label) : bool :=
  in_classes (category obj) classes
  && (check_crowd obj || check_ignored obj)
  && is_ok (resolve_rle image_size obj).

(** The frame without those objects. *)
Definition without_discarded (classes : list string)
  (image_size : option ImageSize) (f : Frame) : Frame :=
  mkFrame (frameIndex f)
          (option_map
             (filter (fun obj =>
                        negb (discarded_prediction classes image_size obj)))
             (labels f)).

(** The ignore regions an object contributes: its mask when it is crowd or
    ignored and of a known category, whichever category that is. *)
Definition ignore_region_of (classes : list string)
  (image_size : option ImageSize) (obj : Label) : list RLE :=
  if in_classes (category obj) classes
     && (check_crowd obj || check_ignored obj)
  then match resolve_rle image_size obj with
       | Ok (Some r) => [r]
       | _ => []
       end
  else [].

(** The positions of a boolean mask that hold [true], in ascending order,
    counted from [k]. *)
Fixpoint positions_from (k : nat) (mask : list bool) : list nat :=
  match mask with
  | [] => []
  | b :: rest =>
      if b then k :: positions_from (S k) rest
      else positions_from (S k) rest
  end.

(** The positions of the predictions that the ignore filter keeps: those
    matched with finite cost by the assignment and those that lie in no
    ignore region. *)
Definition survivors (ignore_iof_thr : Q) (distances : Matrix)
  (pred_rles_c gt_ignores : list RLE) : list nat :=
  filter (fun n =>
            match nth_error pred_rles_c n with
            | Some rp =>
                assigned_finite distances n
                || negb (in_ignore_region ignore_iof_thr gt_ignores rp)
            | None => false
            end)
         (seq 0 (length pred_rles_c)).

(** The object raises nothing in the loop of [parse_objects]. *)
Definition object_parses (classes : list string) (ignore_unknown_cats : bool)
  (image_size : option ImageSize) (obj : Label) : bool :=
  match resolve_rle image_size obj with
  | Err _ => false
  | Ok None => true
  | Ok (Some _) => in_classes (category obj) classes || ignore_unknown_cats
  end.







(** A frame with every label id set to the empty string: what
    [label_ids_to_int] may not change. *)
Definition erase_ids (f : Frame) : Frame :=
  mkFrame (frameIndex f)
          (option_map
             (map (fun l => mkLabel "" (category l) (rle l) (poly2d l)
                                    (crowd l) (ignored l)))
             (labels f)).

End SpecWords.

(** ** An instance to compute with

    Masks are lists of distinct pixel positions; the overlap is the one
    pycocotools computes (0 when the masks do not meet); the solver takes the
    rows in order and gives each the cheapest finite column still free, which
    is a minimum-cost assignment for a matrix with at most one row. The
    arithmetic is exact ([fl] changes nothing), ids are read as decimal
    numerals, and the pool reports the first failure in task order. *)
Module Sample.

#[export] Instance types : MaskTypes := {|
  RLE := list nat;
  Poly2D := list nat;
  ImageSize := nat * nat;
  Mask := list nat;
  Categories := list string
|}.

Definition area (m : list nat) : nat := length m.

Definition intersection (a b : list nat) : nat :=
  length (filter (fun x => existsb (Nat.eqb x) b) a).

Definition overlap (dt gt : list nat) (iscrowd : bool) : Q :=
  let i := intersection dt gt in
  if Nat.eqb i 0 then 0%Q
  else if iscrowd then (Z.of_nat i # Pos.of_nat (area dt))%Q
  else (Z.of_nat i # Pos.of_nat (area dt + area gt - i))%Q.

(** Cheapest finite cell of [row] in a column not in [used]; columns are
    numbered from [n]. *)
Fixpoint best_col (row : list cell) (n : nat) (used : list nat)
  (best : option (nat * Q)) : option (nat * Q) :=
  match row with
  | [] => best
  | c :: rest =>
      let best' :=
        match c with
        | Some q =>
            if existsb (Nat.eqb n) used then best
            else match best with
                 | Some (_, q0) => if Qltb q q0 then Some (n, q) else best
                 | None => Some (n, q)
                 end
        | None => best
        end in
      best_col rest (S n) used best'
  end.

Fixpoint assign_rows (rows : list (list cell)) (m : nat) (used : list nat)
  : list (nat * nat) :=
  match rows with
  | [] => []
  | row :: rest =>
      match best_col row 0 used None with
      | Some (n, _) => (m, n) :: assign_rows rest (S m) (n :: used)
      | None => assign_rows rest (S m) used
      end
  end.

Definition solver (M : Matrix) : list (nat * nat) :=
  assign_rows (cells M) 0 [].

(** The value of a string of decimal digits. *)
Fixpoint digits_value (s : string) (acc : Z) : option Z :=
  match s with
  | EmptyString => Some acc
  | String c rest =>
      let n := Ascii.nat_of_ascii c in
      if Nat.leb 48 n && Nat.leb n 57
      then digits_value rest (10 * acc + Z.of_nat (n - 48))%Z
      else None
  end.

Definition decimal_int32 (s : string) : int32_result :=
  match s with
  | EmptyString => NotAnInteger
  | _ =>
      match digits_value s 0 with
      | Some z => if Z.ltb z (2 ^ 31) then Int32 z else OutOfRange
      | None => NotAnInteger
      end
  end.

#[export] Instance externals : Externals := {|
  fl := fun q => q;
  np_int32 := decimal_int32;
  pool_pick := hd IndexError;
  poly2ds_to_mask := fun _ polys => concat polys;
  mask_to_rle := fun m => m;
  mask_iou := overlap;
  linear_sum_assignment := solver;
  label_ids_to_int := fun fs => fs;
  leaf_category_names := fun cs => cs;
  TrackResult := list (list MOTAccumulator);
  render_results := fun _ accs => accs
|}.

(** Objects and frames used in the examples below. *)
Definition obj (i : string) (cat : string) (pixels : list nat)
  (is_crowd : bool) : Label :=
  mkLabel i cat (Some pixels) None is_crowd false.

Definition gt_car : Label := obj "1" "car" (seq 0 10) false.
Definition pred_car : Label := obj "1" "car" (seq 0 8) false.
Definition crowd_car : Label := obj "2" "car" (seq 20 10) true.
Definition pred_in_crowd : Label := obj "3" "car" (seq 20 8) false.
Definition pred_alone : Label := obj "4" "car" (seq 40 6) false.
Definition pred_pedestrian : Label := obj "7" "pedestrian" (seq 20 8) false.
Definition dog_with_mask : Label := obj "5" "dog" (seq 0 4) false.
Definition dog_no_mask : Label := mkLabel "6" "dog" None None false false.
Definition poly_car : Label :=
  mkLabel "8" "car" None (Some [[0; 1]; [2]]) false false.
(** Predictions whose ids are no int32. *)
Definition pred_named : Label := obj "a12" "car" (seq 0 8) false.
Definition pred_huge : Label := obj "99999999999" "car" (seq 0 8) false.

Definition frame (k : Z) (ls : list Label) : Frame := mkFrame (Some k) (Some ls).

Definition config : Config := mkConfig ["car"; "pedestrian"] None.

(** One frame: a car and a crowd of cars in the ground truth; a prediction on
    the car (IoU 0.8), one inside the crowd and one elsewhere. *)
Definition gt_parsed : Parsed :=
  mkParsed [seq 0 10] [0] [1%Z] [seq 20 10].
Definition pred_parsed : Parsed :=
  mkParsed [seq 0 8; seq 20 8; seq 40 6] [0; 0; 0] [1%Z; 3%Z; 4%Z] [].

Definition crowd_only_parsed : Parsed := mkParsed [] [] [] [seq 20 10].
Definition pedestrian_parsed : Parsed := mkParsed [seq 20 8] [1] [7%Z] [].

(** One video of one frame, ground truth and prediction with IoU 0.8. *)
Definition one_car_gts : list Video := [[frame 0 [gt_car]]].
Definition one_car_results : list Video := [[frame 0 [pred_car]]].


End Sample.

(** ** An instance with double rounding

    As [Sample], but [fl] rounds a rational to the nearest number with a
    53-bit significand, ties to the even significand, which is what IEEE 754
    does in the range of the normal doubles. *)
Module Doubles.
Import Sample.

(** Nearest integer to [n / d], ties to even. *)
Definition round_half_even (n : Z) (d : positive) : Z :=
  let q := (n / Zpos d)%Z in
  let r := (n mod Zpos d)%Z in
  match (2 * r ?= Zpos d)%Z with
  | Lt => q
  | Gt => (q + 1)%Z
  | Eq => if Z.even q then q else (q + 1)%Z
  end.

(** [n / d < 2 ^ e] *)
Definition below_pow2 (n d : positive) (e : Z) : bool :=
  if Z.leb 0 e then Z.ltb (Zpos n) (Zpos d * 2 ^ e)
  else Z.ltb (Zpos n * 2 ^ (- e)) (Zpos d).

(** The double nearest to [n / d]: with [2 ^ e <= n / d < 2 ^ (e + 1)] the
    significand is [n / d * 2 ^ (52 - e)] rounded to an integer. *)
Definition round_pos (n d : positive) : Q :=
  let e0 := (Z.log2 (Zpos n) - Z.log2 (Zpos d))%Z in
  let e := if below_pow2 n d e0 then (e0 - 1)%Z else e0 in
  let s := (52 - e)%Z in
  if Z.leb 0 s
  then (round_half_even (Zpos n * 2 ^ s) d # Z.to_pos (2 ^ s))%Q
  else (round_half_even (Zpos n) (d * Z.to_pos (2 ^ (- s))) * 2 ^ (- s) # 1)%Q.

Definition round_double (q : Q) : Q :=
  match Qnum q with
  | Z0 => 0%Q
  | Zpos n => round_pos n (Qden q)
  | Zneg n => (- round_pos n (Qden q))%Q
  end.

Definition externals : Externals := {|
  fl := round_double;
  np_int32 := Sample.decimal_int32;
  pool_pick := hd IndexError;
  poly2ds_to_mask := fun _ polys => concat polys;
  mask_to_rle := fun m => m;
  mask_iou := fun dt gt iscrowd => round_double (Sample.overlap dt gt iscrowd);
  linear_sum_assignment := Sample.solver;
  label_ids_to_int := fun fs => fs;
  leaf_category_names := fun cs => cs;
  TrackResult := list (list MOTAccumulator);
  render_results := fun _ accs => accs
|}.

(** A ground-truth mask of four pixels and a prediction of one of them: the
    IoU is 1/4. The threshold is the double next above 1/4. *)
Definition four_pixels : RLE := [0; 1; 2; 3].
Definition one_pixel : RLE := [0].
Definition quarter_gt : list RLE := [four_pixels].
Definition quarter_pred : list RLE := [one_pixel].
Definition above_quarter : Q := (4503599627370497 # 18014398509481984)%Q.

End Doubles.

(** ** Further predicates and the command line *)

Section Further.
Context {MT : MaskTypes} {EX : Externals}.

(** What the loop appends for an object: mask, class index and id string,
    when its category is known, it is neither crowd nor ignored and its mask
    can be resolved. *)
Definition raw_detection_of (classes : list string)
  (image_size : option ImageSize) (obj : Label)
  : list (RLE * nat * string) :=
  if in_classes (category obj) classes
     && negb (check_crowd obj || check_ignored obj)
  then match resolve_rle image_size obj with
       | Ok (Some r) => [(r, index (category obj) classes, label_id obj)]
       | _ => []
       end
  else [].

(** A raw detection with its id as int32, when the id is one. *)
Definition with_int32 (d : RLE * nat * string) : list (RLE * nat * Z) :=
  match np_int32 (snd d) with
  | Int32 z => [(fst (fst d), snd (fst d), z)]
  | _ => []
  end.

(** The detection an object contributes: mask, class index and id, when its
    category is known, it is neither crowd nor ignored, its mask can be
    resolved and its id is an int32. *)
Definition detection_of (classes : list string)
  (image_size : option ImageSize) (obj : Label) : list (RLE * nat * Z) :=
  flat_map with_int32 (raw_detection_of classes image_size obj).

(** The rows of a matrix agree with its shape. *)
Definition wf_matrix (D : Matrix) : Prop :=
  length (cells D) = nrows D /\
  Forall (fun row => length row = ncols D) (cells D).

(** An update call whose matrix has one row per ground-truth id and one
    column per prediction id. *)
Definition wf_call (c : UpdateCall) : Prop :=
  nrows (upd_distances c) = length (upd_gt_ids c) /\
  ncols (upd_distances c) = length (upd_pred_ids c) /\
  wf_matrix (upd_distances c).

(** The update call class [i] makes in a frame, as a list of length at most
    one. *)
Definition class_calls (iou_thr ignore_iof_thr : Q) (gt pred : Parsed)
  (i : nat) : list UpdateCall :=
  match class_update iou_thr ignore_iof_thr gt pred i with
  | Ok (Some c) => [c]
  | _ => []
  end.

(** Frames in ascending order of [get_frame_index]. *)
Definition key_sorted (fs : list Frame) : Prop :=
  StronglySorted
    (fun a b => (get_frame_index a <= get_frame_index b)%Z) fs.

End Further.

(** The threshold that reaches [acc_single_video_mots]: the default of its
    signature with more than one process. *)
Definition effective_thr (iou_thr : Q) (nproc : Z) : Q :=
  if Z.ltb 1 nproc then (1 # 2)%Q else iou_thr.

(** Lines 284-289, [--ignore-unknown-cats] with [type=bool] and
    [default=False]: argparse applies [bool] to the string given on the
    command line, and [bool] of a string is true unless the string is empty;
    without the option the value is the default. *)
Definition arg_bool (s : string) : bool := negb (String.eqb s "").

Definition ignore_unknown_cats_arg (given : option string) : bool :=
  match given with
  | Some s => arg_bool s
  | None => false
  end.

(** More inputs for the sample instance. *)
Module Cases.
Import Sample.

(** The calls of the sample frame and of the one-car video at the
    thresholds 0.5. *)
Definition frame_call : UpdateCall :=
  mkUpdate [1%Z] [1%Z; 4%Z]
           (mkMatrix 1 2 [[Some (1 - (8 # 10))%Q; nan]]).
Definition car_call : UpdateCall :=
  mkUpdate [1%Z] [1%Z] (mkMatrix 1 1 [[Some (1 - (8 # 10))%Q]]).

Definition sample_frame : Frame * Frame :=
  (frame 0 [gt_car; crowd_car],
   frame 0 [pred_car; pred_in_crowd; pred_alone]).

Definition car_gts : list Frame := [frame 0 [gt_car]].
Definition car_results : list Frame := [frame 0 [pred_car]].

(** Two frames in both orders. *)
Definition two_gts : list Frame := [frame 0 [gt_car]; frame 1 []].
Definition two_gts_swapped : list Frame := [frame 1 []; frame 0 [gt_car]].
Definition two_results : list Frame := [frame 0 [pred_car]; frame 1 []].
Definition two_results_swapped : list Frame :=
  [frame 1 []; frame 0 [pred_car]].

(** The masks of the sample frame. *)
Definition car_masks : list RLE := [seq 0 10].
Definition car_pred_masks : list RLE := [seq 0 8].
Definition pred_masks : list RLE := [seq 0 8; seq 20 8; seq 40 6].
Definition crowd_masks : list RLE := [seq 20 10].

(** A ground-truth frame without frame index. *)
Definition unindexed_gts : list Frame := [mkFrame None (Some [gt_car])].

(** An image size, and a list with a car, an object of unknown category and
    a car given by a polygon. *)
Definition canvas : ImageSize := (8, 8).
Definition mixed_objects : list Label := [pred_car; dog_with_mask; poly_car].

End Cases.

(** * Properties *)

(** ** Generic facts about the loops *)

Lemma bind_ok {A B : Type} (r : result A) (k : A -> result B) (b : B) :
  bind r k = Ok b -> exists a, r = Ok a /\ k a = Ok b.
Proof.
  destruct r as [a|e]; simpl; intros H; [exists a; auto | discriminate].
Qed.

Lemma foldM_app {A S : Type} (body : S -> A -> result S) (xs ys : list A)
  (s : S) :
  foldM body (xs ++ ys) s = bind (foldM body xs s) (foldM body ys).
Proof.
  revert s; induction xs as [|x xs IH]; intros s; simpl; [reflexivity|].
  destruct (body s x) as [s'|e]; simpl; [apply IH | reflexivity].
Qed.

Lemma foldM_ext {A S : Type} (f g : S -> A -> result S) (xs : list A) (s : S) :
  (forall s' x, In x xs -> f s' x = g s' x) -> foldM f xs s = foldM g xs s.
Proof.
  revert s; induction xs as [|x xs IH]; intros s H; simpl; [reflexivity|].
  rewrite (H s x (or_introl eq_refl)).
  destruct (g s x) as [s'|e]; simpl; [|reflexivity].
  apply IH; intros s'' y Hy; apply H; right; exact Hy.
Qed.

Lemma mapM_ext {A B : Type} (f g : A -> result B) (xs : list A) :
  (forall x, In x xs -> f x = g x) -> mapM f xs = mapM g xs.
Proof.
  induction xs as [|x xs IH]; intros H; simpl; [reflexivity|].
  rewrite (H x (or_introl eq_refl)), IH; [reflexivity|].
  intros y Hy; apply H; right; exact Hy.
Qed.

Lemma Qltb_lt (a b : Q) : Qltb a b = true <-> (a < b)%Q.
Proof.
  unfold Qltb; rewrite negb_true_iff; split; intros H.
  - apply Qnot_le_lt; intros Hle.
    apply Qle_bool_iff in Hle; congruence.
  - destruct (Qle_bool b a) eqn:E; [|reflexivity].
    apply Qle_bool_iff in E; exfalso; apply (Qlt_not_le _ _ H E).
Qed.

Lemma Qltb_ge (a b : Q) : Qltb a b = false <-> (b <= a)%Q.
Proof.
  unfold Qltb; rewrite negb_false_iff; apply Qle_bool_iff.
Qed.


Lemma mapM_length {A B : Type} (f : A -> result B) (xs : list A)
  (ys : list B) :
  mapM f xs = Ok ys -> length ys = length xs.
Proof.
  revert ys; induction xs as [|x xs IH]; simpl; intros ys H.
  - injection H as <-; reflexivity.
  - apply bind_ok in H as [y [_ H]]; apply bind_ok in H as [ys' [H' H]].
    injection H as <-; simpl; rewrite (IH _ H'); reflexivity.
Qed.

Section ParseObjects.
Context {MT : MaskTypes} {EX : Externals}.
Variables (classes : list string) (ignore_unknown_cats : bool).

Lemma parse_loop_app (image_size : option ImageSize)
  (pre post : list Label) :
  parse_loop (pre ++ post) classes ignore_unknown_cats image_size =
  bind (parse_loop pre classes ignore_unknown_cats image_size)
       (foldM (parse_object classes ignore_unknown_cats image_size) post).
Proof. apply foldM_app. Qed.

Lemma parse_objects_ok (image_size : option ImageSize) (objs : list Label)
  (st : Parsed) :
  parse_objects objs classes ignore_unknown_cats image_size = Ok st ->
  exists l ids,
    parse_loop objs classes ignore_unknown_cats image_size = Ok l /\
    mapM to_int32 (p_ids l) = Ok ids /\
    st = mkParsed (p_rles l) (p_labels l) ids (p_ignore_rles l).
Proof.
  unfold parse_objects, to_arrays; intros H.
  apply bind_ok in H as [l [Hl H]]; apply bind_ok in H as [ids [Hi H]].
  injection H as <-; exists l, ids; auto.
Qed.

Lemma index_in_classes (c : string) (cs : list string) :
  in_classes c cs = true -> nth_error cs (index c cs) = Some c.
Proof.
  induction cs as [|x cs IH]; simpl; [discriminate|].
  destruct (String.eqb c x) eqn:E; simpl.
  - intros _; apply String.eqb_eq in E; subst; reflexivity.
  - exact IH.
Qed.

(** C8. An object without native mask and without polygon outline is skipped
    before its category is looked at: the loop body returns the lists
    unchanged for every category, every class list and either value of the
    ignore-unknown-categories flag, so the object can be deleted from the
    input without changing the result, and no unknown-category error comes
    from it. *)
Theorem parse_objects_skips_maskless (image_size : option ImageSize)
  (obj : Label) :
  rle obj = None -> poly2d obj = None ->
  (forall st,
     parse_object classes ignore_unknown_cats image_size st obj = Ok st) /\
  (forall pre post,
     parse_objects (pre ++ obj :: post) classes ignore_unknown_cats
                   image_size =
     parse_objects (pre ++ post) classes ignore_unknown_cats image_size).
Proof.
  intros Hr Hp.
  assert (Hbody : forall st,
    parse_object classes ignore_unknown_cats image_size st obj = Ok st).
  { intros st; unfold parse_object, resolve_rle; rewrite Hr, Hp; reflexivity. }
  split; [exact Hbody|].
  intros pre post; unfold parse_objects; rewrite !parse_loop_app.
  destruct (parse_loop pre classes ignore_unknown_cats image_size)
    as [st|e]; simpl; [|reflexivity].
  rewrite Hbody; reflexivity.
Qed.



End ParseObjects.

(** ** The cost matrix *)

Lemma nth_error_combine_repeat {A B : Type} (xs : list A) (b : B) (n : nat)
  (x : A) :
  nth_error xs n = Some x ->
  nth_error (combine xs (repeat b (length xs))) n = Some (x, b).
Proof.
  revert n; induction xs as [|y xs IH]; intros [|n]; simpl;
    try discriminate.
  - intros H; injection H as ->; reflexivity.
  - apply IH.
Qed.

Lemma get_full_nan (r c m n : nat) (x : cell) :
  get (full_nan r c) m n = Some x -> x = nan.
Proof.
  unfold get, full_nan; simpl.
  destruct (nth_error (repeat (repeat nan c) r) m) as [row|] eqn:E;
    [|discriminate].
  apply nth_error_In, repeat_spec in E; subst row.
  intros H; apply nth_error_In, repeat_spec in H; exact H.
Qed.

Section Distances.
Context {MT : MaskTypes} {EX : Externals}.

Lemma threshold_keep (iou_thr u : Q) :
  (fl (1 - u) <= fl (1 - iou_thr))%Q ->
  threshold iou_thr u = Some (fl (1 - u))%Q.
Proof.
  intros H; unfold threshold; cbv zeta.
  destruct (Qltb (fl (1 - iou_thr)) (fl (1 - u))) eqn:E; [|reflexivity].
  apply Qltb_lt in E; lra.
Qed.

Lemma threshold_drop (iou_thr u : Q) :
  (fl (1 - iou_thr) < fl (1 - u))%Q -> threshold iou_thr u = nan.
Proof.
  intros H; unfold threshold; cbv zeta.
  destruct (Qltb (fl (1 - iou_thr)) (fl (1 - u))) eqn:E; [reflexivity|].
  apply Qltb_ge in E; lra.
Qed.

Lemma build_distances_nonempty (iou_thr : Q) (G P : list RLE) :
  G <> [] -> P <> [] ->
  build_distances iou_thr G P =
  mkMatrix (length G) (length P)
    (map (map (threshold iou_thr))
       (transpose 0%Q (length G) (iou P G (repeat false (length G))))).
Proof.
  intros HG HP; unfold build_distances.
  destruct G; [congruence|]; destruct P; [congruence|]; reflexivity.
Qed.

Lemma get_build_distances (iou_thr : Q) (G P : list RLE) (g p : nat)
  (rg rp : RLE) :
  nth_error G g = Some rg -> nth_error P p = Some rp ->
  get (build_distances iou_thr G P) g p =
  Some (threshold iou_thr (mask_iou rp rg false)).
Proof.
  intros Hg Hp.
  assert (HG : G <> []) by (intros ->; destruct g; discriminate).
  assert (HP : P <> []) by (intros ->; destruct p; discriminate).
  rewrite (build_distances_nonempty _ _ _ HG HP).
  assert (Hlt : g < length G) by (apply nth_error_Some; congruence).
  unfold get, transpose; simpl.
  rewrite !nth_error_map, nth_error_seq.
  apply Nat.ltb_lt in Hlt; rewrite Hlt; simpl.
  rewrite !nth_error_map; unfold iou; rewrite nth_error_map, Hp; simpl.
  f_equal; f_equal.
  apply nth_error_nth.
  rewrite nth_error_map, (nth_error_combine_repeat _ _ _ _ Hg); reflexivity.
Qed.

(** C3, amended. With ground truth [G] and predictions [P] of the class
    both non-empty, the cost matrix has one row per ground-truth mask and one
    column per prediction, and its entry (g, p) is the double [1 - IoU] when
    that double does not exceed the double [1 - iou_thr], and NaN when it
    does; as rounding is monotone, the entry is [1 - IoU] whenever the IoU
    reaches [iou_thr]. With exactly one side empty the matrix is the all-NaN
    matrix with that dimension zero. *)
Theorem build_distances_entries (iou_thr : Q) (G P : list RLE) :
  let D := build_distances iou_thr G P in
  (G <> [] -> P <> [] ->
   shape D = (length G, length P) /\
   length (cells D) = length G /\
   Forall (fun row => length row = length P) (cells D) /\
   forall g p rg rp,
     nth_error G g = Some rg -> nth_error P p = Some rp ->
     let d := fl (1 - mask_iou rp rg false)%Q in
     ((d <= fl (1 - iou_thr))%Q -> get D g p = Some (Some d)) /\
     ((fl (1 - iou_thr) < d)%Q -> get D g p = Some nan) /\
     ((forall a b, (a <= b)%Q -> (fl a <= fl b)%Q) ->
      (iou_thr <= mask_iou rp rg false)%Q -> get D g p = Some (Some d))) /\
  (G = [] -> P <> [] ->
   D = full_nan 0 (length P) /\ shape D = (0, length P) /\
   forall m n c, get D m n = Some c -> c = nan) /\
  (G <> [] -> P = [] ->
   D = full_nan (length G) 0 /\ shape D = (length G, 0) /\
   forall m n c, get D m n = Some c -> c = nan).
Proof.
  intros D; subst D; split; [|split].
  - intros HG HP; split; [|split; [|split]].
    + rewrite (build_distances_nonempty _ _ _ HG HP); reflexivity.
    + rewrite (build_distances_nonempty _ _ _ HG HP); simpl.
      unfold transpose; rewrite !length_map, length_seq; reflexivity.
    + rewrite (build_distances_nonempty _ _ _ HG HP); simpl.
      apply Forall_forall; intros row Hrow.
      apply in_map_iff in Hrow as [row0 [<- Hrow0]].
      unfold transpose in Hrow0.
      apply in_map_iff in Hrow0 as [j [<- _]].
      unfold iou; rewrite !length_map; reflexivity.
    + intros g p rg rp Hg Hp d; subst d.
      rewrite (get_build_distances _ _ _ _ _ _ _ Hg Hp).
      split; [|split].
      * intros H; rewrite (threshold_keep _ _ H); reflexivity.
      * intros H; rewrite (threshold_drop _ _ H); reflexivity.
      * intros Hmono H; rewrite threshold_keep; [reflexivity|].
        apply Hmono; lra.
  - intros -> HP.
    assert (E : build_distances iou_thr [] P = full_nan 0 (length P)).
    { unfold build_distances; destruct P; [congruence|reflexivity]. }
    rewrite E; split; [reflexivity|]; split; [reflexivity|].
    intros m n c; apply get_full_nan.
  - intros HG ->.
    assert (E : build_distances iou_thr G [] = full_nan (length G) 0).
    { unfold build_distances; destruct G; [congruence|reflexivity]. }
    rewrite E; split; [reflexivity|]; split; [reflexivity|].
    intros m n c; apply get_full_nan.
Qed.

Lemma wf_full_nan (r c : nat) : wf_matrix (full_nan r c).
Proof.
  unfold wf_matrix, full_nan; simpl; split; [apply repeat_length|].
  apply Forall_forall; intros row H; apply repeat_spec in H; subst.
  apply repeat_length.
Qed.

Lemma wf_build_distances (iou_thr : Q) (G P : list RLE) :
  wf_matrix (build_distances iou_thr G P).
Proof.
  unfold build_distances.
  destruct (_ && _); [apply wf_full_nan|].
  destruct (_ && _); [apply wf_full_nan|].
  unfold wf_matrix, transpose; simpl; split.
  - rewrite !length_map, length_seq; reflexivity.
  - apply Forall_forall; intros row Hrow.
    apply in_map_iff in Hrow as [row0 [<- Hrow0]].
    apply in_map_iff in Hrow0 as [j [<- _]].
    unfold iou; rewrite !length_map; reflexivity.
Qed.

End Distances.

(** ** The ignore filter *)

Lemma nth_error_set_false (n k : nat) (fps : list bool) :
  nth_error (set_false n fps) k =
  if Nat.eqb k n then option_map (fun _ => false) (nth_error fps k)
  else nth_error fps k.
Proof.
  revert n k; induction fps as [|b fps IH]; intros n k; simpl.
  - destruct k, n; simpl; try reflexivity.
    destruct (Nat.eqb k n); reflexivity.
  - destruct n as [|n]; destruct k as [|k]; simpl; try reflexivity.
    apply IH.
Qed.

Lemma length_set_false (n : nat) (fps : list bool) :
  length (set_false n fps) = length fps.
Proof.
  revert n; induction fps as [|b fps IH]; intros [|n]; simpl; auto.
Qed.

Lemma nth_error_valid_inds_of (fps ignores : list bool) (n : nat) :
  nth_error (valid_inds_of fps ignores) n =
  match nth_error fps n, nth_error ignores n with
  | Some f, Some g => Some (negb (f && g))
  | _, _ => None
  end.
Proof.
  revert ignores n; induction fps as [|f fps IH]; intros [|g ignores] [|n];
    simpl; try reflexivity.
  - destruct (nth_error fps n); reflexivity.
  - apply IH.
Qed.

Lemma length_valid_inds_of (fps ignores : list bool) :
  length fps = length ignores ->
  length (valid_inds_of fps ignores) = length fps.
Proof.
  revert ignores; induction fps as [|f fps IH]; intros [|g ignores]; simpl;
    intros H; try discriminate; auto.
Qed.

Lemma shape_eqb_eq (s t : nat * nat) : shape_eqb s t = true <-> s = t.
Proof.
  destruct s as [a b], t as [c d]; unfold shape_eqb; simpl.
  rewrite andb_true_iff, !Nat.eqb_eq; split.
  - intros [-> ->]; reflexivity.
  - intros H; injection H; auto.
Qed.

Lemma update_at_changes (i : nat) (c : UpdateCall)
  (accs : list MOTAccumulator) :
  i < length accs ->
  update_at i (fun acc => update acc (upd_gt_ids c) (upd_pred_ids c)
                                 (upd_distances c)) accs <> accs.
Proof.
  revert i; induction accs as [|a accs IH]; intros [|i]; simpl; intros Hi;
    try lia.
  - intros H; injection H as H; unfold update in H.
    apply (f_equal (@length _)) in H; rewrite length_app in H; simpl in H; lia.
  - intros H; injection H as H; apply (IH i); [lia | exact H].
Qed.

Lemma length_select_same {A B : Type} (xs : list A) (ys : list B)
  (mask : list bool) :
  length xs = length ys ->
  length (select xs mask) = length (select ys mask).
Proof.
  revert ys mask; induction xs as [|x xs IH]; intros [|y ys] [|b mask];
    simpl; intros H; try discriminate; try reflexivity.
  injection H as H; destruct b; simpl; rewrite (IH ys mask H); reflexivity.
Qed.

Lemma positions_from_ge (k n : nat) (mask : list bool) :
  In n (positions_from k mask) -> k <= n.
Proof.
  revert k; induction mask as [|b mask IH]; intros k; simpl; [intros []|].
  destruct b; simpl; [intros [<-|H]; [lia|]|intros H];
    apply IH in H; lia.
Qed.

Lemma positions_from_filter (k : nat) (mask : list bool) :
  positions_from k mask =
  filter (fun n => nth (n - k) mask false) (seq k (length mask)).
Proof.
  revert k; induction mask as [|b mask IH]; intros k; [reflexivity|].
  assert (E : filter (fun n => nth (n - k) (b :: mask) false)
                     (seq (S k) (length mask)) =
              filter (fun n => nth (n - S k) mask false)
                     (seq (S k) (length mask))).
  { apply filter_ext_in; intros n Hn; apply in_seq in Hn.
    replace (n - k) with (S (n - S k)) by lia; reflexivity. }
  transitivity
    (if nth (k - k) (b :: mask) false
     then k :: filter (fun n => nth (n - k) (b :: mask) false)
                      (seq (S k) (length mask))
     else filter (fun n => nth (n - k) (b :: mask) false)
                 (seq (S k) (length mask))); [|reflexivity].
  rewrite E, <- IH, Nat.sub_diag; destruct b; reflexivity.
Qed.

(** Boolean-mask indexing keeps the elements at the positions where the
    mask holds, in order. *)
Lemma select_positions {A : Type} (xs : list A) (mask : list bool) (k : nat) :
  length mask <= length xs ->
  map Some (select xs mask) =
  map (fun n => nth_error xs (n - k)) (positions_from k mask).
Proof.
  revert xs k; induction mask as [|b mask IH]; intros xs k Hl.
  - destruct xs; reflexivity.
  - destruct xs as [|x xs]; simpl in Hl; [lia|].
    assert (Hrest : map Some (select xs mask) =
                    map (fun n => nth_error (x :: xs) (n - k))
                        (positions_from (S k) mask)).
    { rewrite (IH xs (S k)) by lia.
      apply map_ext_in; intros n Hn; apply positions_from_ge in Hn.
      replace (n - k) with (S (n - S k)) by lia; reflexivity. }
    simpl; destruct b; simpl; rewrite Hrest; [|reflexivity].
    rewrite Nat.sub_diag; reflexivity.
Qed.

Lemma select_nth {A : Type} (xs : list A) (mask : list bool) :
  length mask <= length xs ->
  length (select xs mask) = length (positions_from 0 mask) /\
  forall k n, nth_error (positions_from 0 mask) k = Some n ->
              nth_error (select xs mask) k = nth_error xs n.
Proof.
  intros Hl; pose proof (select_positions xs mask 0 Hl) as E; split.
  - apply (f_equal (@length _)) in E; rewrite !length_map in E; exact E.
  - intros k n Hk.
    apply (f_equal (fun l => nth_error l k)) in E.
    rewrite !nth_error_map, Hk in E; simpl in E.
    rewrite Nat.sub_0_r in E.
    destruct (nth_error (select xs mask) k); simpl in E; congruence.
Qed.

Section IgnoreFilter.
Context {MT : MaskTypes} {EX : Externals}.

(** The solver returns positions of the matrix it was given. *)
Hypothesis solver_in_range :
  forall M m n, In (m, n) (linear_sum_assignment M) -> get M m n <> None.

Lemma assigned_finite_iff (D : Matrix) (n : nat) :
  assigned_finite D n = true <->
  exists m q, In (m, n) (linear_sum_assignment D) /\ get D m n = Some (Some q).
Proof.
  unfold assigned_finite; rewrite existsb_exists; split.
  - intros [[m n'] [Hin Hf]]; unfold finite_pair in Hf; simpl in Hf.
    apply andb_true_iff in Hf as [Hn Hc]; apply Nat.eqb_eq in Hn; subst n'.
    destruct (get D m n) as [[q|]|] eqn:E; try discriminate.
    exists m, q; auto.
  - intros [m [q [Hin Hg]]]; exists (m, n); split; [exact Hin|].
    unfold finite_pair; simpl; rewrite Nat.eqb_refl, Hg; reflexivity.
Qed.

Lemma in_ignore_region_iff (thr : Q) (gt_ignores : list RLE) (rp : RLE) :
  in_ignore_region thr gt_ignores rp = true <->
  exists r, In r gt_ignores /\ (thr < mask_iou rp r true)%Q.
Proof.
  unfold in_ignore_region; rewrite existsb_exists.
  split; intros [r [Hin H]]; exists r; split; auto; apply Qltb_lt; exact H.
Qed.

Lemma foldM_mark_matched (D : Matrix) (pairs : list (nat * nat)) :
  (forall mn, In mn pairs -> get D (fst mn) (snd mn) <> None) ->
  forall fps, exists fps',
    foldM (mark_matched D) pairs fps = Ok fps' /\
    length fps' = length fps /\
    forall n, nth_error fps' n =
              option_map (fun b => b && negb (existsb (finite_pair D n) pairs))
                         (nth_error fps n).
Proof.
  induction pairs as [|mn pairs IH]; intros Hin fps.
  - exists fps; simpl; repeat split.
    intros n; destruct (nth_error fps n); simpl; [|reflexivity].
    rewrite andb_true_r; reflexivity.
  - assert (Hmn := Hin mn (or_introl eq_refl)).
    assert (Hrest : forall x, In x pairs -> get D (fst x) (snd x) <> None)
      by (intros x Hx; apply Hin; right; exact Hx).
    simpl; unfold mark_matched at 1.
    destruct (get D (fst mn) (snd mn)) as [c|] eqn:Eg; [|congruence].
    destruct (isfinite c) eqn:Ec; simpl.
    + destruct (IH Hrest (set_false (snd mn) fps)) as [fps' [Hf [Hl Hn]]].
      exists fps'; split; [exact Hf|]; split.
      * rewrite Hl; apply length_set_false.
      * intros n; rewrite Hn, nth_error_set_false.
        unfold finite_pair at 2; rewrite Eg, Ec, (Nat.eqb_sym (snd mn) n).
        destruct (Nat.eqb n (snd mn)); destruct (nth_error fps n); simpl;
          try reflexivity.
        rewrite andb_false_r; reflexivity.
    + destruct (IH Hrest fps) as [fps' [Hf [Hl Hn]]].
      exists fps'; split; [exact Hf|]; split; [exact Hl|].
      intros n; rewrite Hn.
      unfold finite_pair at 2; rewrite Eg, Ec, andb_false_r; reflexivity.
Qed.

Lemma existsb_iof_row (thr : Q) (gt_ignores : list RLE) (rp : RLE) :
  existsb (Qltb thr)
    (map (fun gc => mask_iou rp (fst gc) (snd gc))
         (combine gt_ignores (repeat true (length gt_ignores)))) =
  in_ignore_region thr gt_ignores rp.
Proof.
  unfold in_ignore_region; induction gt_ignores as [|r rs IH]; simpl;
    [reflexivity|].
  rewrite IH; reflexivity.
Qed.

Lemma ignore_valid_inds_spec (thr : Q) (D : Matrix)
  (preds gt_ignores : list RLE) :
  exists valid,
    ignore_valid_inds thr D preds gt_ignores = Ok valid /\
    length valid = length preds /\
    forall n rp, nth_error preds n = Some rp ->
      nth_error valid n =
      Some (assigned_finite D n || negb (in_ignore_region thr gt_ignores rp)).
Proof.
  unfold ignore_valid_inds.
  destruct (foldM_mark_matched D (linear_sum_assignment D)
              (fun mn H => solver_in_range D (fst mn) (snd mn)
                             (eq_ind _ (fun x => In x _) H _
                                     (surjective_pairing mn)))
              (repeat true (length preds))) as [fps [Hf [Hl Hn]]].
  rewrite Hf; simpl; eexists; split; [reflexivity|].
  rewrite repeat_length in Hl.
  assert (Hli : length (ignores_of thr
                  (iou preds gt_ignores (repeat true (length gt_ignores))))
                = length preds)
    by (unfold ignores_of, iou; rewrite !length_map; reflexivity).
  split; [rewrite length_valid_inds_of; congruence|].
  intros n rp Hp; rewrite nth_error_valid_inds_of, Hn.
  assert (Hlt : n < length preds) by (apply nth_error_Some; congruence).
  rewrite (nth_error_repeat true Hlt); simpl.
  unfold ignores_of, iou; rewrite !nth_error_map, Hp; simpl.
  rewrite existsb_iof_row; unfold assigned_finite.
  destruct (existsb _ _); destruct (in_ignore_region _ _ _); reflexivity.
Qed.

Lemma ignore_filter_ok (thr : Q) (D : Matrix) (preds gt_ignores : list RLE)
  (ids : list Z) :
  exists ids' D',
    ignore_filter thr D preds gt_ignores ids = Ok (ids', D') /\
    nrows D' = nrows D /\ (preds = [] -> ncols D' = ncols D).
Proof.
  unfold ignore_filter.
  destruct (Nat.ltb 0 (length gt_ignores) && Nat.ltb 0 (length preds)) eqn:E.
  - destruct (ignore_valid_inds_spec thr D preds gt_ignores)
      as [valid [Hv _]].
    rewrite Hv; simpl; do 2 eexists; split; [reflexivity|]; split;
      [reflexivity|].
    intros ->; rewrite andb_false_r in E; discriminate.
  - do 2 eexists; repeat split.
Qed.

Lemma shape_build_distances (iou_thr : Q) (G P : list RLE) :
  shape (build_distances iou_thr G P) = (length G, length P).
Proof.
  unfold build_distances; destruct G; destruct P; reflexivity.
Qed.

(** C2. In the processing of one class in one frame with at least one ignore
    region and at least one prediction of the class, the assignment is solved
    on the cost matrix first; prediction [n] survives exactly when the
    assignment matches it with finite cost or its intersection over
    foreground exceeds [ignore_iof_thr] for no ignore region. What the
    accumulator is handed holds the ids of the survivors only, in their
    order, and a matrix that has one column per survivor, which is the
    column of that prediction in the cost matrix: the ids and the columns of
    the other predictions are gone. *)
Theorem class_update_ignore_filter (iou_thr ignore_iof_thr : Q)
  (gt pred : Parsed) (i : nat) :
  let gt_inds := class_mask (p_labels gt) i in
  let pred_inds := class_mask (p_labels pred) i in
  let gt_rles_c := select (p_rles gt) gt_inds in
  let pred_rles_c := select (p_rles pred) pred_inds in
  let gt_ids_c := select (p_ids gt) gt_inds in
  let pred_ids_c := select (p_ids pred) pred_inds in
  let distances := build_distances iou_thr gt_rles_c pred_rles_c in
  let kept :=
    survivors ignore_iof_thr distances pred_rles_c (p_ignore_rles gt) in
  p_ignore_rles gt <> [] -> pred_rles_c <> [] ->
  length (p_ids pred) = length (p_rles pred) ->
  (forall n,
     In n kept <->
     exists rp,
       nth_error pred_rles_c n = Some rp /\
       (assigned_finite distances n = true \/
        in_ignore_region ignore_iof_thr (p_ignore_rles gt) rp = false)) /\
  exists final_ids final,
    ignore_filter ignore_iof_thr distances pred_rles_c (p_ignore_rles gt)
                  pred_ids_c = Ok (final_ids, final) /\
    map Some final_ids = map (nth_error pred_ids_c) kept /\
    shape final = (length gt_rles_c, length kept) /\
    (forall m k n,
       nth_error kept k = Some n -> get final m k = get distances m n) /\
    (forall m k, length kept <= k -> get final m k = None) /\
    class_update iou_thr ignore_iof_thr gt pred i =
      Ok (if shape_eqb (shape final) (0, 0) then None
          else Some (mkUpdate gt_ids_c final_ids final)).
Proof.
  intros gt_inds pred_inds gt_rles_c pred_rles_c gt_ids_c pred_ids_c
         distances kept Hign Hpred Hids.
  destruct (ignore_valid_inds_spec ignore_iof_thr distances pred_rles_c
              (p_ignore_rles gt)) as [valid [Hv [Hl Hn]]].
  assert (Hkept : positions_from 0 valid = kept).
  { rewrite positions_from_filter; unfold kept, survivors; rewrite Hl.
    apply filter_ext_in; intros n Hin; apply in_seq in Hin.
    rewrite Nat.sub_0_r.
    destruct (nth_error pred_rles_c n) as [rp|] eqn:E.
    - apply nth_error_nth; apply (Hn n rp E).
    - apply nth_error_None in E; lia. }
  pose proof (shape_build_distances iou_thr gt_rles_c pred_rles_c) as Hs.
  fold distances in Hs; injection Hs as Hs1 Hs2.
  destruct (wf_build_distances iou_thr gt_rles_c pred_rles_c) as [_ Hrows].
  fold distances in Hrows; rewrite Hs2 in Hrows.
  assert (Hlen : length pred_ids_c = length pred_rles_c)
    by (apply length_select_same; exact Hids).
  split.
  { intros n; unfold kept, survivors; rewrite filter_In, in_seq; split.
    - intros [_ Hc].
      destruct (nth_error pred_rles_c n) as [rp|]; [|discriminate].
      exists rp; split; [reflexivity|].
      apply orb_true_iff in Hc as [Hc|Hc]; [left; exact Hc|].
      right; apply negb_true_iff; exact Hc.
    - intros [rp [Hp Hc]]; split.
      + split; [lia|]; apply nth_error_Some; congruence.
      + rewrite Hp; apply orb_true_iff.
        destruct Hc as [Hc|Hc]; [left; exact Hc|].
        right; apply negb_true_iff; exact Hc. }
  assert (Hf : ignore_filter ignore_iof_thr distances pred_rles_c
                 (p_ignore_rles gt) pred_ids_c =
               Ok (select pred_ids_c valid, select_columns distances valid)).
  { unfold ignore_filter.
    destruct (p_ignore_rles gt); [congruence|].
    destruct pred_rles_c; [congruence|].
    simpl; simpl in Hv; rewrite Hv; reflexivity. }
  exists (select pred_ids_c valid), (select_columns distances valid).
  split; [exact Hf|]; split; [|split; [|split; [|split]]].
  - rewrite <- Hkept, (select_positions pred_ids_c valid 0) by lia.
    apply map_ext; intros n; rewrite Nat.sub_0_r; reflexivity.
  - unfold shape, select_columns; simpl; rewrite Hs1, Hs2, <- Hkept.
    f_equal; apply select_nth; rewrite repeat_length; lia.
  - intros m k n Hk; rewrite <- Hkept in Hk.
    unfold get, select_columns; cbn [cells]; rewrite nth_error_map.
    destruct (nth_error (cells distances) m) as [row|] eqn:Er; simpl;
      [|reflexivity].
    apply (proj2 (select_nth row valid
                    ltac:(rewrite (proj1 (Forall_forall _ _) Hrows row
                                     (nth_error_In _ _ Er)); lia))
                 k n Hk).
  - intros m k Hk; rewrite <- Hkept in Hk.
    unfold get, select_columns; cbn [cells]; rewrite nth_error_map.
    destruct (nth_error (cells distances) m) as [row|] eqn:Er; simpl;
      [|reflexivity].
    apply nth_error_None.
    rewrite (proj1 (select_nth row valid
                      ltac:(rewrite (proj1 (Forall_forall _ _) Hrows row
                                       (nth_error_In _ _ Er)); lia))).
    exact Hk.
  - unfold class_update.
    fold gt_inds pred_inds; fold gt_rles_c pred_rles_c gt_ids_c pred_ids_c.
    replace (Nat.eqb (length pred_rles_c) 0) with false
      by (destruct pred_rles_c; [congruence | reflexivity]).
    rewrite andb_false_r; fold distances; rewrite Hf; simpl.
    destruct (shape_eqb _ _); reflexivity.
Qed.

(** C4. The accumulator of class [i] is updated exactly when the matrix that
    is left after the ignore filter is not of shape 0x0 (for a class with no
    ground truth and no prediction in the frame that matrix is the empty
    one): with shape 0x0 the accumulators come back as they were, otherwise
    accumulator [i] receives one more update call with the ground-truth ids,
    the surviving prediction ids and that matrix. *)
Theorem acc_class_skips_empty_matrix (iou_thr ignore_iof_thr : Q)
  (gt pred : Parsed) (accs : list MOTAccumulator) (i : nat) :
  let gt_inds := class_mask (p_labels gt) i in
  let pred_inds := class_mask (p_labels pred) i in
  let gt_rles_c := select (p_rles gt) gt_inds in
  let pred_rles_c := select (p_rles pred) pred_inds in
  let gt_ids_c := select (p_ids gt) gt_inds in
  let pred_ids_c := select (p_ids pred) pred_inds in
  let distances := build_distances iou_thr gt_rles_c pred_rles_c in
  exists final_ids final_distances,
    ignore_filter ignore_iof_thr distances pred_rles_c (p_ignore_rles gt)
                  pred_ids_c = Ok (final_ids, final_distances) /\
    nrows final_distances = length gt_rles_c /\
    (gt_rles_c = [] -> pred_rles_c = [] -> shape final_distances = (0, 0)) /\
    (shape final_distances = (0, 0) ->
     class_update iou_thr ignore_iof_thr gt pred i = Ok None /\
     acc_class iou_thr ignore_iof_thr gt pred accs i = Ok accs) /\
    (shape final_distances <> (0, 0) ->
     class_update iou_thr ignore_iof_thr gt pred i =
       Ok (Some (mkUpdate gt_ids_c final_ids final_distances)) /\
     acc_class iou_thr ignore_iof_thr gt pred accs i =
       Ok (update_at i
             (fun acc => update acc gt_ids_c final_ids final_distances)
             accs) /\
     (i < length accs ->
      update_at i
        (fun acc => update acc gt_ids_c final_ids final_distances) accs
      <> accs)).
Proof.
  intros gt_inds pred_inds gt_rles_c pred_rles_c gt_ids_c pred_ids_c
         distances.
  destruct (ignore_filter_ok ignore_iof_thr distances pred_rles_c
              (p_ignore_rles gt) pred_ids_c) as [ids' [D' [Hf [Hr Hc]]]].
  assert (Hs : shape distances = (length gt_rles_c, length pred_rles_c))
    by apply shape_build_distances.
  injection Hs as Hs1 Hs2.
  exists ids', D'; split; [exact Hf|]; split; [congruence|].
  assert (Hempty : gt_rles_c = [] -> pred_rles_c = [] -> shape D' = (0, 0)).
  { intros HG HP; unfold shape; rewrite Hr, (Hc HP), Hs1, Hs2, HG, HP.
    reflexivity. }
  split; [exact Hempty|].
  assert (Hcu : class_update iou_thr ignore_iof_thr gt pred i =
                if shape_eqb (shape D') (0, 0) then Ok None
                else Ok (Some (mkUpdate gt_ids_c ids' D'))).
  { unfold class_update.
    fold gt_inds pred_inds; fold gt_rles_c pred_rles_c gt_ids_c pred_ids_c.
    destruct (Nat.eqb (length gt_rles_c) 0
              && Nat.eqb (length pred_rles_c) 0) eqn:E.
    - apply andb_true_iff in E as [EG EP].
      apply Nat.eqb_eq, length_zero_iff_nil in EG, EP.
      apply (Hempty EG) in EP.
      apply shape_eqb_eq in EP; rewrite EP; reflexivity.
    - fold distances; rewrite Hf; simpl.
      destruct (shape_eqb (shape D') (0, 0)); reflexivity. }
  split.
  - intros H0; apply shape_eqb_eq in H0; rewrite H0 in Hcu.
    split; [exact Hcu|]; unfold acc_class; rewrite Hcu; reflexivity.
  - intros Hne.
    destruct (shape_eqb (shape D') (0, 0)) eqn:E;
      [apply shape_eqb_eq in E; contradiction|].
    split; [exact Hcu|]; split.
    + unfold acc_class; rewrite Hcu; reflexivity.
    + intros Hi.
      apply (update_at_changes i (mkUpdate gt_ids_c ids' D') accs Hi).
Qed.

End IgnoreFilter.

(** ** What the predictions contribute *)

Section Predictions.
Context {MT : MaskTypes} {EX : Externals}.
Variables (classes : list string) (ignore_unknown_cats : bool)
          (image_size : option ImageSize).

Lemma parse_object_agree (st1 st2 : Lists) (obj : Label) :
  same_detections st1 st2 ->
  agree (parse_object classes ignore_unknown_cats image_size st1 obj)
        (parse_object classes ignore_unknown_cats image_size st2 obj).
Proof.
  intros (Hr & Hl & Hi); unfold parse_object.
  destruct (resolve_rle image_size obj) as [[r|]|e]; simpl;
    [|repeat split; assumption|reflexivity].
  unfold classify.
  destruct (in_classes (category obj) classes).
  - destruct (check_crowd obj || check_ignored obj);
      simpl; unfold same_detections; simpl; repeat split; congruence.
  - destruct (negb ignore_unknown_cats); simpl;
      [reflexivity | repeat split; assumption].
Qed.

Lemma parse_object_discarded (st : Lists) (obj : Label) :
  discarded_prediction classes image_size obj = true ->
  exists st',
    parse_object classes ignore_unknown_cats image_size st obj = Ok st' /\
    same_detections st st'.
Proof.
  unfold discarded_prediction, parse_object; intros H.
  apply andb_true_iff in H as [H Hok]; apply andb_true_iff in H as [Hc Hi].
  destruct (resolve_rle image_size obj) as [[r|]|e]; simpl in *;
    try discriminate.
  - unfold classify; rewrite Hc, Hi; eexists; split; [reflexivity|].
    unfold same_detections; simpl; repeat split.
  - exists st; unfold same_detections; repeat split.
Qed.

Lemma parse_filter_agree (objs : list Label) (st1 st2 : Lists) :
  same_detections st1 st2 ->
  agree
    (foldM (parse_object classes ignore_unknown_cats image_size) objs st1)
    (foldM (parse_object classes ignore_unknown_cats image_size)
       (filter (fun obj => negb (discarded_prediction classes image_size obj))
               objs) st2).
Proof.
  revert st1 st2; induction objs as [|obj objs IH]; intros st1 st2 Hs;
    simpl; [exact Hs|].
  destruct (discarded_prediction classes image_size obj) eqn:E; simpl.
  - destruct (parse_object_discarded st1 obj E) as [st' [Hp (Hr & Hl & Hi)]].
    rewrite Hp; simpl; apply IH.
    destruct Hs as (Hr' & Hl' & Hi'); repeat split; congruence.
  - pose proof (parse_object_agree st1 st2 obj Hs) as Ha.
    destruct (parse_object classes ignore_unknown_cats image_size st1 obj)
      as [a|e1];
    destruct (parse_object classes ignore_unknown_cats image_size st2 obj)
      as [b|e2]; simpl in *; try contradiction; [apply IH; exact Ha | exact Ha].
Qed.

Lemma class_update_same_detections (iou_thr ignore_iof_thr : Q)
  (gt p1 p2 : Parsed) (i : nat) :
  p_rles p1 = p_rles p2 -> p_labels p1 = p_labels p2 ->
  p_ids p1 = p_ids p2 ->
  class_update iou_thr ignore_iof_thr gt p1 i =
  class_update iou_thr ignore_iof_thr gt p2 i.
Proof.
  destruct p1, p2; intros Hr Hl Hi; simpl in *; subst; reflexivity.
Qed.

(** C9. A crowd or ignored prediction of a known category is discarded: the
    frame gives the same accumulators (or the same exception) with and
    without such predictions, and the ignore list of the prediction-side
    [parse_objects] call has no influence on what a class hands to its
    accumulator, so the ignore regions in use are those of the ground
    truth. *)
Theorem prediction_crowd_discarded (iou_thr ignore_iof_thr : Q)
  (accs : list MOTAccumulator) (gt res : Frame) :
  acc_frame classes iou_thr ignore_iof_thr ignore_unknown_cats image_size
            accs (gt, res) =
  acc_frame classes iou_thr ignore_iof_thr ignore_unknown_cats image_size
            accs (gt, without_discarded classes image_size res)
  /\
  (forall gt_parsed rles labels ids ignores1 ignores2 i,
     class_update iou_thr ignore_iof_thr gt_parsed
                  (mkParsed rles labels ids ignores1) i =
     class_update iou_thr ignore_iof_thr gt_parsed
                  (mkParsed rles labels ids ignores2) i).
Proof.
  split.
  - unfold acc_frame; simpl.
    destruct (negb (frameIndex_eqb (frameIndex gt) (frameIndex res)));
      [reflexivity|].
    destruct (parse_objects (labels_or_empty gt) classes ignore_unknown_cats
                            image_size) as [gt_parsed|e]; simpl;
      [|reflexivity].
    assert (Hl : labels_or_empty (without_discarded classes image_size res) =
                 filter (fun obj =>
                           negb (discarded_prediction classes image_size obj))
                        (labels_or_empty res)).
    { unfold labels_or_empty, without_discarded; simpl.
      destruct (labels res); reflexivity. }
    rewrite Hl.
    pose proof (parse_filter_agree (labels_or_empty res) empty_parsed
                  empty_parsed (conj eq_refl (conj eq_refl eq_refl))) as Ha.
    unfold parse_objects, parse_loop.
    destruct (foldM (parse_object classes ignore_unknown_cats image_size)
                (labels_or_empty res) empty_parsed) as [p1|e1];
    destruct (foldM (parse_object classes ignore_unknown_cats image_size)
                (filter _ (labels_or_empty res)) empty_parsed)
      as [p2|e2]; simpl in *; try contradiction; [|congruence].
    destruct Ha as (Hr & Hla & Hi); unfold to_arrays; rewrite Hi.
    destruct (mapM to_int32 (p_ids p2)) as [ids|e]; simpl; [|reflexivity].
    apply foldM_ext; intros s i _; unfold acc_class.
    rewrite (class_update_same_detections _ _ gt_parsed
               (mkParsed (p_rles p1) (p_labels p1) ids (p_ignore_rles p1))
               (mkParsed (p_rles p2) (p_labels p2) ids (p_ignore_rles p2)) i
               Hr Hla eq_refl).
    reflexivity.
  - intros; apply class_update_same_detections; reflexivity.
Qed.

End Predictions.

(** ** Ignore regions and classes *)

Section IgnoreRegions.
Context {MT : MaskTypes} {EX : Externals}.
Variables (classes : list string) (ignore_unknown_cats : bool)
          (image_size : option ImageSize).

Hypothesis solver_in_range :
  forall M m n, In (m, n) (linear_sum_assignment M) -> get M m n <> None.

Lemma parse_loop_ignore_rles (objs : list Label) (st0 st : Lists) :
  foldM (parse_object classes ignore_unknown_cats image_size) objs st0
    = Ok st ->
  p_ignore_rles st =
  p_ignore_rles st0 ++ flat_map (ignore_region_of classes image_size) objs.
Proof.
  revert st0; induction objs as [|obj objs IH]; intros st0; simpl.
  - intros H; injection H as <-; rewrite app_nil_r; reflexivity.
  - intros H; apply bind_ok in H as [st1 [H1 H2]].
    rewrite (IH _ H2); clear IH H2.
    unfold parse_object in H1; unfold ignore_region_of.
    destruct (resolve_rle image_size obj) as [[r|]|e]; simpl in H1;
      try discriminate.
    + unfold classify in H1.
      destruct (in_classes (category obj) classes); simpl.
      * destruct (check_crowd obj || check_ignored obj);
          injection H1 as <-; simpl;
          [rewrite <- app_assoc|]; reflexivity.
      * destruct (negb ignore_unknown_cats); [discriminate|].
        injection H1 as <-; reflexivity.
    + injection H1 as <-.
      destruct (_ && _); reflexivity.
Qed.

Lemma parse_ignore_rles (objs : list Label) (st : Parsed) :
  parse_objects objs classes ignore_unknown_cats image_size = Ok st ->
  p_ignore_rles st = flat_map (ignore_region_of classes image_size) objs.
Proof.
  intros H; apply parse_objects_ok in H as (l & ids & Hl & _ & ->); simpl.
  apply (parse_loop_ignore_rles objs empty_parsed l Hl).
Qed.

Lemma solver_no_rows (c : nat) : linear_sum_assignment (full_nan 0 c) = [].
Proof.
  destruct (linear_sum_assignment (full_nan 0 c)) as [|[m n] rest] eqn:E;
    [reflexivity|].
  exfalso; apply (solver_in_range (full_nan 0 c) m n).
  - rewrite E; left; reflexivity.
  - unfold get, full_nan; simpl; destruct m; reflexivity.
Qed.

Lemma index_neq (a b : string) (cs : list string) :
  in_classes a cs = true -> a <> b -> index a cs <> index b cs.
Proof.
  induction cs as [|x cs IH]; simpl; [discriminate|].
  intros Hin Hab.
  destruct (String.eqb a x) eqn:Ea; destruct (String.eqb b x) eqn:Eb;
    simpl in Hin; try discriminate.
  - apply String.eqb_eq in Ea, Eb; congruence.
  - intros H; injection H; apply IH; assumption.
Qed.

(** C10. The ignore regions of a frame are the masks of all its crowd or
    ignored ground-truth objects of known categories, in one list without
    regard to the category, and every class filters its predictions against
    that list: a crowd object of one category removes an unmatched prediction
    of another category that lies in it, so that the class of the prediction
    gets no update, where without the crowd object it gets one with the
    prediction as a false positive ([z] is the id of the prediction as
    int32). *)
Theorem ignore_regions_not_per_class (iou_thr ignore_iof_thr : Q)
  (crowd_obj pred_obj : Label) (rA rB : RLE) (z : Z) :
  resolve_rle image_size crowd_obj = Ok (Some rA) ->
  in_classes (category crowd_obj) classes = true ->
  check_crowd crowd_obj || check_ignored crowd_obj = true ->
  resolve_rle image_size pred_obj = Ok (Some rB) ->
  in_classes (category pred_obj) classes = true ->
  check_crowd pred_obj || check_ignored pred_obj = false ->
  category crowd_obj <> category pred_obj ->
  (ignore_iof_thr < mask_iou rB rA true)%Q ->
  let i := index (category pred_obj) classes in
  let pred := mkParsed [rB] [i] [z] [] in
  (forall objs st,
     parse_objects objs classes ignore_unknown_cats image_size = Ok st ->
     p_ignore_rles st = flat_map (ignore_region_of classes image_size) objs)
  /\
  parse_objects [crowd_obj] classes ignore_unknown_cats image_size =
    Ok (mkParsed [] [] [] [rA]) /\
  (np_int32 (label_id pred_obj) = Int32 z ->
   parse_objects [pred_obj] classes ignore_unknown_cats image_size = Ok pred)
  /\
  index (category crowd_obj) classes <> i /\
  class_update iou_thr ignore_iof_thr (mkParsed [] [] [] [rA]) pred i
    = Ok None /\
  class_update iou_thr ignore_iof_thr empty_parsed pred i =
    Ok (Some (mkUpdate [] [z] (full_nan 0 1))).
Proof.
  intros HrA HcA HfA HrB HcB HfB Hneq Hiof i pred.
  split; [|split; [|split; [|split; [|split]]]].
  - intros objs st H; apply (parse_ignore_rles objs st H).
  - unfold parse_objects, parse_loop; simpl.
    unfold parse_object; rewrite HrA; simpl.
    unfold classify; rewrite HcA, HfA; reflexivity.
  - intros Hz; unfold parse_objects, parse_loop; simpl.
    unfold parse_object; rewrite HrB; simpl.
    unfold classify; rewrite HcB, HfB; simpl.
    unfold to_arrays; simpl; unfold to_int32; rewrite Hz; reflexivity.
  - apply index_neq; assumption.
  - unfold class_update, pred; simpl; rewrite Nat.eqb_refl; simpl.
    unfold ignore_filter, ignore_valid_inds; simpl.
    change (build_distances iou_thr [] [rB]) with (full_nan 0 1).
    rewrite solver_no_rows; simpl.
    apply Qltb_lt in Hiof; rewrite Hiof; reflexivity.
  - unfold class_update, pred; simpl; rewrite Nat.eqb_refl; reflexivity.
Qed.

End IgnoreRegions.

(** ** Validation of the shapes *)

Section Loops.
Context {A B S : Type}.




Lemma mapM_fails (P : A -> bool) (f : A -> result B) (xs : list A) :
  (forall x, P x = false -> is_ok (f x) = false) ->
  forallb P xs = false -> is_ok (mapM f xs) = false.
Proof.
  intros Hf; induction xs as [|x xs IH]; simpl; [discriminate|].
  intros H; destruct (P x) eqn:E.
  - destruct (f x) as [y|e]; simpl; [|reflexivity].
    specialize (IH H); destruct (mapM f xs); [discriminate|reflexivity].
  - specialize (Hf x E); destruct (f x); [discriminate|reflexivity].
Qed.

Lemma mapM_err (Q : exn -> Prop) (f : A -> result B) (xs : list A) :
  (forall x e, In x xs -> f x = Err e -> Q e) ->
  forall e, mapM f xs = Err e -> Q e.
Proof.
  induction xs as [|x xs IH]; simpl; intros Hf e H; [discriminate|].
  destruct (f x) as [y|e'] eqn:E; simpl in H.
  - destruct (mapM f xs) as [ys|e''] eqn:E'; simpl in H; [discriminate|].
    injection H as <-.
    apply (IH (fun y0 e0 Hy => Hf y0 e0 (or_intror Hy)) e'' eq_refl).
  - injection H as <-; apply (Hf x e' (or_introl eq_refl) E).
Qed.

Lemma mapM_ok_or (e0 : exn) (f : A -> result B) (xs : list A) :
  (forall x, In x xs -> is_ok (f x) = true \/ f x = Err e0) ->
  is_ok (mapM f xs) = true \/ mapM f xs = Err e0.
Proof.
  induction xs as [|x xs IH]; simpl; intros Hf; [left; reflexivity|].
  destruct (Hf x (or_introl eq_refl)) as [H|H].
  - destruct (f x) as [y|e]; [|discriminate]; simpl.
    destruct (IH (fun y0 Hy => Hf y0 (or_intror Hy))) as [H'|H'].
    + destruct (mapM f xs); [left; reflexivity | discriminate].
    + rewrite H'; right; reflexivity.
  - rewrite H; right; reflexivity.
Qed.

End Loops.

Lemma is_ok_false_not_ok {A : Type} (r : result A) :
  is_ok r = false -> exists e, r = Err e.
Proof. destruct r as [a|e]; [discriminate | exists e; reflexivity]. Qed.


Lemma mapM_err_in {A B : Type} (f : A -> result B) (xs : list A) (e : exn) :
  mapM f xs = Err e -> exists x, In x xs /\ f x = Err e.
Proof.
  apply (mapM_err (fun e => exists x, In x xs /\ f x = Err e)).
  intros x e' Hx He; exists x; auto.
Qed.

Lemma errors_of_in {A B : Type} (f : A -> result B) (xs : list A) (e : exn) :
  In e (errors_of (map f xs)) -> exists x, In x xs /\ f x = Err e.
Proof.
  induction xs as [|x xs IH]; simpl; [contradiction|].
  destruct (f x) as [y|e'] eqn:E; simpl.
  - intros H; destruct (IH H) as [x' [Hx' He]]; exists x'; auto.
  - intros [->|H]; [exists x; auto|].
    destruct (IH H) as [x' [Hx' He]]; exists x'; auto.
Qed.

Lemma errors_of_nil {A B : Type} (f : A -> result B) (xs : list A) :
  errors_of (map f xs) = [] -> mapM f xs = Ok (values_of (map f xs)).
Proof.
  induction xs as [|x xs IH]; simpl; [reflexivity|].
  destruct (f x) as [y|e]; simpl; [|discriminate].
  intros H; rewrite (IH H); reflexivity.
Qed.

Lemma errors_of_cons {A B : Type} (f : A -> result B) (xs : list A)
  (e : exn) (es : list exn) :
  errors_of (map f xs) = e :: es -> is_ok (mapM f xs) = false.
Proof.
  induction xs as [|x xs IH]; simpl; [discriminate|].
  destruct (f x) as [y|e']; simpl; [|reflexivity].
  intros H; specialize (IH H); destruct (mapM f xs);
    [discriminate | reflexivity].
Qed.

Section Validation.
Context {MT : MaskTypes} {EX : Externals}.
Variables (classes : list string) (ignore_unknown_cats : bool)
          (image_size : option ImageSize).

Hypothesis solver_in_range :
  forall M m n, In (m, n) (linear_sum_assignment M) -> get M m n <> None.

(** [label_ids_to_int] changes nothing but label ids. *)
Hypothesis label_ids_only :
  forall fs, map erase_ids (label_ids_to_int fs) = map erase_ids fs.


Lemma to_int32_err (s : string) (e : exn) :
  to_int32 s = Err e -> e = ValueError \/ e = OverflowError.
Proof.
  unfold to_int32; destruct (np_int32 s); intros H; try discriminate;
    injection H as <-; auto.
Qed.


Lemma parse_object_is_ok (st : Lists) (obj : Label) :
  is_ok (parse_object classes ignore_unknown_cats image_size st obj) =
  object_parses classes ignore_unknown_cats image_size obj.
Proof.
  unfold parse_object, object_parses, classify.
  destruct (resolve_rle image_size obj) as [[r|]|e]; simpl; try reflexivity.
  destruct (in_classes _ _); simpl; [destruct (_ || _); reflexivity|].
  destruct ignore_unknown_cats; reflexivity.
Qed.

Lemma parse_loop_is_ok (objs : list Label) :
  is_ok (parse_loop objs classes ignore_unknown_cats image_size) =
  forallb (object_parses classes ignore_unknown_cats image_size) objs.
Proof.
  unfold parse_loop; generalize (@empty_parsed MT string).
  induction objs as [|obj objs IH]; intros st; simpl; [reflexivity|].
  rewrite <- (parse_object_is_ok st obj).
  destruct (parse_object _ _ _ st obj); simpl; [apply IH | reflexivity].
Qed.





Lemma frameIndex_label_ids (fs : list Frame) :
  map frameIndex (label_ids_to_int fs) = map frameIndex fs.
Proof.
  pose proof (f_equal (map frameIndex) (label_ids_only fs)) as H.
  rewrite !map_map in H; exact H.
Qed.


Lemma In_insert_frame (x f : Frame) (fs : list Frame) :
  In x (insert_frame f fs) -> x = f \/ In x fs.
Proof.
  induction fs as [|g fs IH]; simpl.
  - intros [H|[]]; left; congruence.
  - destruct (Z.leb _ _); simpl.
    + intros [H|H]; [left; congruence | right; exact H].
    + intros [H|H]; [right; left; exact H|].
      destruct (IH H); [left | right; right]; assumption.
Qed.

Lemma In_sorted (x : Frame) (fs : list Frame) : In x (sorted fs) -> In x fs.
Proof.
  induction fs as [|f fs IH]; simpl; [auto|].
  intros H; apply In_insert_frame in H as [H|H]; [left; congruence|].
  right; apply IH; exact H.
Qed.





End Validation.

(** ** evaluate_seg_track *)

Section Evaluate.
Context {MT : MaskTypes} {EX : Externals}.

(** The pool returns what the sequential map returns when no task fails,
    and fails when a task fails. *)
Lemma starmap_ok {A B : Type} (f : A -> result B) (xs : list A)
  (ys : list B) :
  starmap f xs = Ok ys <-> mapM f xs = Ok ys.
Proof.
  unfold starmap.
  destruct (errors_of (map f xs)) as [|e es] eqn:E.
  - rewrite (errors_of_nil f xs E); tauto.
  - pose proof (errors_of_cons f xs e es E) as H.
    split; [discriminate|].
    intros H'; rewrite H' in H; discriminate.
Qed.

Lemma starmap_is_ok {A B : Type} (f : A -> result B) (xs : list A) :
  is_ok (starmap f xs) = is_ok (mapM f xs).
Proof.
  unfold starmap.
  destruct (errors_of (map f xs)) as [|e es] eqn:E.
  - rewrite (errors_of_nil f xs E); reflexivity.
  - rewrite (errors_of_cons f xs e es E); reflexivity.
Qed.


Hypothesis solver_in_range :
  forall M m n, In (m, n) (linear_sum_assignment M) -> get M m n <> None.

Hypothesis label_ids_only :
  forall fs, map erase_ids (label_ids_to_int fs) = map erase_ids fs.

(** The pool re-raises the exception of one of the failed tasks. *)
Hypothesis pool_picks_failure :
  forall e es, In (pool_pick (e :: es)) (e :: es).

Lemma starmap_err_in {A B : Type} (f : A -> result B) (xs : list A)
  (e : exn) :
  starmap f xs = Err e -> exists x, In x xs /\ f x = Err e.
Proof.
  unfold starmap.
  destruct (errors_of (map f xs)) as [|e0 es] eqn:E; [discriminate|].
  intros H; injection H as <-.
  apply (errors_of_in f xs); rewrite E; apply pool_picks_failure.
Qed.

Lemma video_accs_of_err (gts results : list Video)
  (class_names : list string) (iou_thr ignore_iof_thr : Q)
  (ignore_unknown_cats : bool) (image_size : option ImageSize) (nproc : Z)
  (e : exn) :
  video_accs_of acc_single_video_mots_func gts results class_names
    iou_thr ignore_iof_thr ignore_unknown_cats image_size nproc = Err e ->
  exists gr,
    In gr (combine gts results) /\
    acc_single_video_mots (fst gr) (snd gr) class_names
      (effective_thr iou_thr nproc) ignore_iof_thr ignore_unknown_cats
      image_size = Err e.
Proof.
  unfold video_accs_of, effective_thr; destruct (Z.ltb 1 nproc).
  - apply starmap_err_in.
  - apply mapM_err_in.
Qed.


End Evaluate.

(** * The sample instance: contracts, examples, evaluations *)

Import Sample.

Lemma best_col_in_row (row : list cell) (n : nat) (used : list nat)
  (best : option (nat * Q)) (k : nat) (q : Q) :
  best_col row n used best = Some (k, q) ->
  best = Some (k, q) \/ (n <= k /\ nth_error row (k - n) = Some (Some q)).
Proof.
  revert n best; induction row as [|c row IH]; intros n best; simpl.
  - intros H; left; exact H.
  - intros H; apply IH in H as [H|[Hle Hn]].
    + destruct c as [q0|]; [|left; exact H].
      destruct (existsb (Nat.eqb n) used); [left; exact H|].
      destruct best as [[k0 q1]|].
      * destruct (Qltb q0 q1); [|left; exact H].
        injection H as <- <-; right; rewrite Nat.sub_diag; split;
          [lia | reflexivity].
      * injection H as <- <-; right; rewrite Nat.sub_diag; split;
          [lia | reflexivity].
    + right; split; [lia|].
      replace (k - n) with (S (k - S n)) by lia; exact Hn.
Qed.

Lemma assign_rows_in_range (rows : list (list cell)) (m0 : nat)
  (used : list nat) (m n : nat) :
  In (m, n) (assign_rows rows m0 used) ->
  m0 <= m /\
  exists row q, nth_error rows (m - m0) = Some row /\
                nth_error row n = Some (Some q).
Proof.
  revert m0 used; induction rows as [|row rows IH]; intros m0 used; simpl;
    [intros []|].
  assert (Hrest : forall used',
            In (m, n) (assign_rows rows (S m0) used') ->
            m0 <= m /\
            exists row0 q, nth_error (row :: rows) (m - m0) = Some row0 /\
                           nth_error row0 n = Some (Some q)).
  { intros used' H; apply IH in H as [Hle [row0 [q [Hr Hn]]]].
    split; [lia|]; exists row0, q; split; [|exact Hn].
    replace (m - m0) with (S (m - S m0)) by lia; exact Hr. }
  destruct (best_col row 0 used None) as [[k q]|] eqn:E; [|apply Hrest].
  intros [H|H]; [|apply (Hrest _ H)].
  injection H as <- <-; split; [lia|].
  apply best_col_in_row in E as [E|[_ E]]; [discriminate|].
  exists row, q; rewrite Nat.sub_diag; rewrite Nat.sub_0_r in E; auto.
Qed.

Lemma sample_solver_in_range (M : Matrix) (m n : nat) :
  In (m, n) (linear_sum_assignment M) -> get M m n <> None.
Proof.
  intros H; apply assign_rows_in_range in H as [_ [row [q [Hr Hn]]]].
  rewrite Nat.sub_0_r in Hr; unfold get; rewrite Hr, Hn; discriminate.
Qed.

Lemma sample_label_ids_only (fs : list Frame) :
  map erase_ids (label_ids_to_int fs) = map erase_ids fs.
Proof. reflexivity. Qed.

Lemma sample_pool_picks_failure (e : exn) (es : list exn) :
  In (pool_pick (e :: es)) (e :: es).
Proof. left; reflexivity. Qed.

Example parse_gt_frame :
  parse_objects [gt_car; crowd_car] ["car"] false None = Ok gt_parsed.
Proof. reflexivity. Qed.

Example parse_pred_frame :
  parse_objects [pred_car; pred_in_crowd; pred_alone] ["car"] false None
  = Ok pred_parsed.
Proof. reflexivity. Qed.

(** C1. With [iou_thr = 0.9] and one ground-truth mask and one prediction of
    IoU 0.8, the sequential branch gives the pair the cost NaN, while the
    branch with a worker pool, which does not pass [iou_thr] on, applies the
    default 0.5 and gives it the cost 0.2: the accumulators differ, and so
    does the result of the evaluation. *)
Theorem worker_pool_ignores_iou_thr :
  video_accs_of acc_single_video_mots_func one_car_gts one_car_results
                ["car"] (9 # 10)%Q (1 # 2)%Q false None 1 =
    Ok [[[mkUpdate [1%Z] [1%Z] (mkMatrix 1 1 [[nan]])]]] /\
  video_accs_of acc_single_video_mots_func one_car_gts one_car_results
                ["car"] (9 # 10)%Q (1 # 2)%Q false None 2 =
    Ok [[[mkUpdate [1%Z] [1%Z] (mkMatrix 1 1 [[Some (1 - (8 # 10))%Q]])]]] /\
  evaluate_seg_track acc_single_video_mots_func one_car_gts one_car_results
                     config (9 # 10)%Q (1 # 2)%Q false 1 <>
  evaluate_seg_track acc_single_video_mots_func one_car_gts one_car_results
                     config (9 # 10)%Q (1 # 2)%Q false 2.
Proof.
  split; [vm_compute; reflexivity|].
  split; [vm_compute; reflexivity|].
  vm_compute; discriminate.
Qed.

(** C2, at the sample frame: the prediction on the car is matched and kept,
    the one inside the crowd is removed, the one elsewhere is kept; the
    accumulator receives the ids 1 and 4 and a matrix of two columns, the
    second of which is the third column of the cost matrix. *)
Lemma class_update_ignore_filter_sample :
  p_ignore_rles gt_parsed <> [] /\
  select (p_rles pred_parsed) (class_mask (p_labels pred_parsed) 0) <> [] /\
  length (p_ids pred_parsed) = length (p_rles pred_parsed) /\
  exists final,
    class_update (1 # 2)%Q (1 # 2)%Q gt_parsed pred_parsed 0 =
      Ok (Some (mkUpdate [1%Z] [1%Z; 4%Z] final)) /\
    shape final = (1, 2) /\
    get final 0 1 =
    get (build_distances (1 # 2)%Q Cases.car_masks Cases.pred_masks) 0 2.
Proof.
  assert (H1 : p_ignore_rles gt_parsed <> []) by discriminate.
  assert (H2 : select (p_rles pred_parsed)
                      (class_mask (p_labels pred_parsed) 0) <> [])
    by discriminate.
  assert (H3 : length (p_ids pred_parsed) = length (p_rles pred_parsed))
    by reflexivity.
  split; [exact H1|]; split; [exact H2|]; split; [exact H3|].
  destruct (class_update_ignore_filter sample_solver_in_range
              (1 # 2)%Q (1 # 2)%Q gt_parsed pred_parsed 0 H1 H2 H3)
    as [_ (ids & final & _ & Hids & Hs & Hget & _ & Hc)].
  exists final.
  assert (E : ids = [1%Z; 4%Z]).
  { vm_compute in Hids.
    destruct ids as [|a [|b [|c rest]]]; try discriminate.
    injection Hids as -> ->; reflexivity. }
  subst ids; rewrite Hs in Hc; vm_compute in Hs.
  split; [exact Hc|]; split; [exact Hs|].
  apply (Hget 0 1 2); reflexivity.
Defined.

(** C3 as stated fails in double arithmetic: with an IoU of 1/4 and the
    threshold the double next above 1/4, the IoU is below the threshold, but
    the doubles [1 - IoU] and [1 - iou_thr] are both 3/4 and the pair keeps
    the cost 3/4. *)
Lemma rounded_threshold_keeps_pair :
  (@mask_iou _ Doubles.externals Doubles.one_pixel Doubles.four_pixels false
   == 1 # 4)%Q /\
  ((1 # 4) < Doubles.above_quarter)%Q /\
  Doubles.round_double Doubles.above_quarter = Doubles.above_quarter /\
  (exists d,
     get (@build_distances _ Doubles.externals Doubles.above_quarter
            Doubles.quarter_gt Doubles.quarter_pred) 0 0
       = Some (Some d) /\ (d == 3 # 4)%Q) /\
  get (@build_distances _ Doubles.externals Doubles.above_quarter
         Doubles.quarter_gt Doubles.quarter_pred) 0 0
    <> Some nan.
Proof.
  split; [vm_compute; reflexivity|].
  split; [reflexivity|].
  split; [vm_compute; reflexivity|].
  split; [eexists; split; [vm_compute; reflexivity | reflexivity]|].
  vm_compute; discriminate.
Qed.

(** C3, amended, at the sample masks: IoU 0.8 against the threshold 0.5. *)
Lemma build_distances_entries_sample :
  Cases.car_masks <> [] /\ Cases.car_pred_masks <> [] /\
  (fl (1 - mask_iou (seq 0 8) (seq 0 10) false) <= fl (1 - (1 # 2)))%Q /\
  get (build_distances (1 # 2)%Q Cases.car_masks Cases.car_pred_masks) 0 0 =
  Some (Some (fl (1 - mask_iou (seq 0 8) (seq 0 10) false))%Q).
Proof.
  assert (H1 : Cases.car_masks <> []) by discriminate.
  assert (H2 : Cases.car_pred_masks <> []) by discriminate.
  assert (H3 : (fl (1 - mask_iou (seq 0 8) (seq 0 10) false)
                <= fl (1 - (1 # 2)))%Q) by discriminate.
  split; [exact H1|]; split; [exact H2|]; split; [exact H3|].
  destruct (proj1 (build_distances_entries (1 # 2)%Q Cases.car_masks
                     Cases.car_pred_masks) H1 H2) as (_ & _ & _ & Hget).
  apply (proj1 (Hget 0 0 (seq 0 10) (seq 0 8) eq_refl eq_refl) H3).
Defined.

(** C4, at a frame with a crowd of cars in the ground truth and one
    pedestrian prediction inside it: the matrix of the pedestrians is 0x0
    after the filter and the accumulators are unchanged. *)
Lemma acc_class_skips_empty_matrix_sample :
  acc_class (1 # 2)%Q (1 # 2)%Q crowd_only_parsed pedestrian_parsed
            [[]; []] 1
  = Ok [[]; []].
Proof.
  destruct (acc_class_skips_empty_matrix sample_solver_in_range
              (1 # 2)%Q (1 # 2)%Q crowd_only_parsed pedestrian_parsed
              [[]; []] 1)
    as [ids [D [Hf [_ [_ [H0 _]]]]]].
  vm_compute in Hf; injection Hf as <- <-.
  apply (H0 eq_refl).
Defined.






(** C8, at an object of unknown category without mask and polygon. *)
Lemma parse_objects_skips_maskless_sample :
  rle dog_no_mask = None /\ poly2d dog_no_mask = None /\
  parse_objects ([gt_car] ++ dog_no_mask :: [crowd_car]) ["car"] false None
    = Ok gt_parsed.
Proof.
  split; [reflexivity|]; split; [reflexivity|].
  rewrite (proj2 (parse_objects_skips_maskless ["car"] false None
                    dog_no_mask eq_refl eq_refl) [gt_car] [crowd_car]).
  reflexivity.
Defined.

(** C10, at a crowd of cars and a pedestrian prediction inside it. *)
Lemma ignore_regions_not_per_class_sample :
  category crowd_car <> category pred_pedestrian /\
  ((1 # 2) < mask_iou (seq 20 8) (seq 20 10) true)%Q /\
  parse_objects [pred_pedestrian] ["car"; "pedestrian"] false None
    = Ok pedestrian_parsed /\
  class_update (1 # 2)%Q (1 # 2)%Q crowd_only_parsed pedestrian_parsed 1
    = Ok None /\
  class_update (1 # 2)%Q (1 # 2)%Q empty_parsed pedestrian_parsed 1
    = Ok (Some (mkUpdate [] [7%Z] (full_nan 0 1))).
Proof.
  assert (H1 : category crowd_car <> category pred_pedestrian)
    by discriminate.
  assert (H2 : ((1 # 2) < mask_iou (seq 20 8) (seq 20 10) true)%Q)
    by reflexivity.
  split; [exact H1|]; split; [exact H2|].
  destruct (ignore_regions_not_per_class ["car"; "pedestrian"] false None
              sample_solver_in_range (1 # 2)%Q (1 # 2)%Q crowd_car
              pred_pedestrian (seq 20 10) (seq 20 8) 7%Z
              eq_refl eq_refl eq_refl eq_refl eq_refl eq_refl H1 H2)
    as (_ & _ & Hp & _ & Hc & He).
  split; [exact (Hp eq_refl)|]; split; [exact Hc | exact He].
Defined.

(** * Further properties of the code *)

(** ** parse_objects *)

Section ParseMore.
Context {MT : MaskTypes} {EX : Externals}.
Variables (classes : list string) (image_size : option ImageSize).

Lemma index_lt (c : string) (cs : list string) :
  in_classes c cs = true -> index c cs < length cs.
Proof.
  induction cs as [|x cs IH]; simpl; [discriminate|].
  destruct (String.eqb c x); simpl; [lia|].
  intros H; apply IH in H; lia.
Qed.

Lemma parse_raw_detections (ignore_unknown_cats : bool) (objs : list Label)
  (st0 st : Lists) :
  foldM (parse_object classes ignore_unknown_cats image_size) objs st0
    = Ok st ->
  let dets := flat_map (raw_detection_of classes image_size) objs in
  p_rles st = p_rles st0 ++ map (fun d => fst (fst d)) dets /\
  p_labels st = p_labels st0 ++ map (fun d => snd (fst d)) dets /\
  p_ids st = p_ids st0 ++ map (fun d => snd d) dets.
Proof.
  revert st0; induction objs as [|obj objs IH]; intros st0; simpl.
  - intros H; injection H as <-; rewrite !app_nil_r; auto.
  - intros H; apply bind_ok in H as [st1 [H1 H2]].
    destruct (IH _ H2) as (Er & El & Ei); rewrite Er, El, Ei; clear IH H2.
    rewrite !map_app.
    unfold parse_object in H1; unfold raw_detection_of.
    destruct (resolve_rle image_size obj) as [[r|]|e]; simpl in H1;
      try discriminate.
    + unfold classify in H1.
      destruct (in_classes (category obj) classes); simpl.
      * destruct (check_crowd obj || check_ignored obj);
          injection H1 as <-; simpl; rewrite <- ?app_assoc; auto.
      * destruct (negb ignore_unknown_cats); [discriminate|].
        injection H1 as <-; auto.
    + injection H1 as <-.
      destruct (_ && _); auto.
Qed.

Lemma with_int32_all (raws : list (RLE * nat * string)) (ids : list Z) :
  mapM to_int32 (map (fun d => snd d) raws) = Ok ids ->
  let dets := flat_map with_int32 raws in
  map (fun d => fst (fst d)) dets = map (fun d => fst (fst d)) raws /\
  map (fun d => snd (fst d)) dets = map (fun d => snd (fst d)) raws /\
  map (fun d => snd d) dets = ids.
Proof.
  revert ids; induction raws as [|[[r l] s] raws IH]; intros ids; simpl.
  - intros H; injection H as <-; auto.
  - intros H; apply bind_ok in H as [z [Hz H]].
    apply bind_ok in H as [zs [Hzs H]]; injection H as <-.
    destruct (IH zs Hzs) as (Er & El & Ei).
    unfold to_int32 in Hz; unfold with_int32 at 1 3 5; simpl.
    destruct (np_int32 s); try discriminate.
    injection Hz as ->; simpl; rewrite Er, El, Ei; auto.
Qed.

Lemma flat_map_detection_of (objs : list Label) :
  flat_map (detection_of classes image_size) objs =
  flat_map with_int32 (flat_map (raw_detection_of classes image_size) objs).
Proof.
  induction objs as [|obj objs IH]; simpl; [reflexivity|].
  rewrite flat_map_app, IH; reflexivity.
Qed.

Lemma parse_detections (ignore_unknown_cats : bool) (objs : list Label)
  (st : Parsed) :
  parse_objects objs classes ignore_unknown_cats image_size = Ok st ->
  let dets := flat_map (detection_of classes image_size) objs in
  p_rles st = map (fun d => fst (fst d)) dets /\
  p_labels st = map (fun d => snd (fst d)) dets /\
  p_ids st = map (fun d => snd d) dets.
Proof.
  intros H.
  apply parse_objects_ok in H as (l & ids & Hl & Hids & ->).
  destruct (parse_raw_detections _ _ _ _ Hl) as (Er & El & Ei).
  simpl in Er, El, Ei; rewrite Ei in Hids.
  destruct (with_int32_all _ _ Hids) as (Fr & Fl & Fi).
  cbv zeta; rewrite flat_map_detection_of; simpl.
  rewrite Er, El, Fr, Fl, Fi; auto.
Qed.

Lemma detection_label (obj : Label) (d : RLE * nat * Z) :
  In d (detection_of classes image_size obj) ->
  in_classes (category obj) classes = true /\
  snd (fst d) = index (category obj) classes.
Proof.
  unfold detection_of; intros Hd.
  apply in_flat_map in Hd as [[[r0 l0] s0] [Hraw Hd]].
  unfold with_int32 in Hd; simpl in Hd.
  destruct (np_int32 s0); try contradiction.
  destruct Hd as [<-|[]]; simpl.
  unfold raw_detection_of in Hraw.
  destruct (in_classes (category obj) classes) eqn:Ec; simpl in Hraw;
    [|contradiction].
  destruct (negb _); [|contradiction].
  destruct (resolve_rle image_size obj) as [[r1|]|e]; try contradiction.
  destruct Hraw as [Hraw|[]]; injection Hraw as _ <- _; auto.
Qed.

(** X1. When [parse_objects] returns, its three detection lists have the
    same length and every label is a position of the class list. *)
Theorem parse_objects_lengths (ignore_unknown_cats : bool)
  (objs : list Label) (st : Parsed) :
  parse_objects objs classes ignore_unknown_cats image_size = Ok st ->
  length (p_rles st) = length (p_labels st) /\
  length (p_labels st) = length (p_ids st) /\
  Forall (fun l => l < length classes) (p_labels st).
Proof.
  intros H; destruct (parse_detections _ _ _ H) as (Er & El & Ei).
  rewrite Er, El, Ei, !length_map.
  split; [reflexivity|]; split; [reflexivity|].
  apply Forall_forall; intros l Hl.
  apply in_map_iff in Hl as [d [<- Hd]].
  apply in_flat_map in Hd as [obj [_ Hd]].
  destruct (detection_label obj d Hd) as [Ec ->].
  apply index_lt; exact Ec.
Qed.

(** X2. When [parse_objects] returns, the detections are those of the
    objects that have a known category, are neither crowd nor ignored and
    have a mask, in the order of the input, each with the index of its
    category and its id as int32. *)
Theorem parse_objects_detections (ignore_unknown_cats : bool)
  (objs : list Label) (st : Parsed) :
  parse_objects objs classes ignore_unknown_cats image_size = Ok st ->
  let dets := flat_map (detection_of classes image_size) objs in
  p_rles st = map (fun d => fst (fst d)) dets /\
  p_labels st = map (fun d => snd (fst d)) dets /\
  p_ids st = map (fun d => snd d) dets.
Proof.
  intros H dets; subst dets.
  apply parse_objects_ok in H as (l & ids & Hl & Hids & ->).
  destruct (parse_raw_detections _ _ _ _ Hl) as (Er & El & Ei).
  simpl in Er, El, Ei; rewrite Ei in Hids.
  destruct (with_int32_all _ _ Hids) as (Fr & Fl & Fi).
  rewrite flat_map_detection_of; simpl.
  rewrite Er, El, Fr, Fl, Fi; auto.
Qed.

Lemma foldM_first_error {A S : Type} (body : S -> A -> result S)
  (xs : list A) (s0 : S) (e : exn) :
  foldM body xs s0 = Err e ->
  exists pre x post s,
    xs = pre ++ x :: post /\ foldM body pre s0 = Ok s /\ body s x = Err e.
Proof.
  revert s0; induction xs as [|x xs IH]; intros s0; simpl; [discriminate|].
  destruct (body s0 x) as [s1|e1] eqn:E; simpl.
  - intros H; apply IH in H as (pre & y & post & s & -> & Hp & Hy).
    exists (x :: pre), y, post, s; simpl; rewrite E; simpl; auto.
  - intros H; injection H as <-.
    exists [], x, xs, s0; simpl; auto.
Qed.

Lemma parse_object_error_kind (ignore_unknown_cats : bool) (st : Lists)
  (obj : Label) (e : exn) :
  parse_object classes ignore_unknown_cats image_size st obj = Err e ->
  (e = ConfigError /\ rle obj = None /\ poly2d obj <> None
   /\ image_size = None) \/
  (e = UnknownCategoryError (category obj) /\ ignore_unknown_cats = false
   /\ in_classes (category obj) classes = false).
Proof.
  unfold parse_object, resolve_rle, classify.
  destruct (rle obj) eqn:Er; simpl.
  - destruct (in_classes _ _); [destruct (_ || _); discriminate|].
    destruct ignore_unknown_cats; simpl; [discriminate|].
    intros H; injection H as <-; right; auto.
  - destruct (poly2d obj) eqn:Ep; simpl; [|discriminate].
    destruct image_size; simpl.
    + destruct (in_classes _ _); [destruct (_ || _); discriminate|].
      destruct ignore_unknown_cats; simpl; [discriminate|].
      intros H; injection H as <-; right; auto.
    + intros H; injection H as <-; left; repeat split; congruence.
Qed.

Lemma raw_detection_id (obj : Label) (d : RLE * nat * string) :
  In d (raw_detection_of classes image_size obj) -> snd d = label_id obj.
Proof.
  unfold raw_detection_of.
  destruct (_ && _); [|intros []].
  destruct (resolve_rle image_size obj) as [[r|]|e];
    [|intros []|intros []].
  intros [<-|[]]; reflexivity.
Qed.

(** An id that the conversion rejects is the id of an object that the loop
    made a detection. *)
Lemma conversion_error_object (ignore_unknown_cats : bool)
  (objs : list Label) (l : Lists) (e : exn) :
  parse_loop objs classes ignore_unknown_cats image_size = Ok l ->
  mapM to_int32 (p_ids l) = Err e ->
  exists obj,
    In obj objs /\ raw_detection_of classes image_size obj <> [] /\
    to_int32 (label_id obj) = Err e.
Proof.
  intros Hl He.
  destruct (parse_raw_detections _ _ _ _ Hl) as (_ & _ & Ei).
  simpl in Ei; rewrite Ei in He.
  apply mapM_err_in in He as [s [Hs He]].
  apply in_map_iff in Hs as [d [<- Hd]].
  apply in_flat_map in Hd as [obj [Hobj Hd]].
  exists obj; split; [exact Hobj|]; split.
  - intros E; rewrite E in Hd; exact Hd.
  - rewrite <- (raw_detection_id obj d Hd); exact He.
Qed.

(** X3. When [parse_objects] raises, either the exception comes from the
    first object that the loop cannot parse: the objects before it pass the
    loop, and the exception is the configuration error, for an object with a
    polygon only when there is no image size, or the unknown-category error
    with the category of that object, when the flag is false; or every
    object passes the loop and the exception is the error of the conversion
    to int32 of the id of an object that became a detection. *)
Theorem parse_objects_first_error (ignore_unknown_cats : bool)
  (objs : list Label) (e : exn) :
  parse_objects objs classes ignore_unknown_cats image_size = Err e ->
  (exists pre obj post l,
     objs = pre ++ obj :: post /\
     parse_loop pre classes ignore_unknown_cats image_size = Ok l /\
     ((e = ConfigError /\ rle obj = None /\ poly2d obj <> None
       /\ image_size = None) \/
      (e = UnknownCategoryError (category obj)
       /\ ignore_unknown_cats = false
       /\ in_classes (category obj) classes = false))) \/
  (is_ok (parse_loop objs classes ignore_unknown_cats image_size) = true /\
   exists obj,
     In obj objs /\ raw_detection_of classes image_size obj <> [] /\
     ((e = ValueError /\ np_int32 (label_id obj) = NotAnInteger) \/
      (e = OverflowError /\ np_int32 (label_id obj) = OutOfRange))).
Proof.
  unfold parse_objects.
  destruct (parse_loop objs classes ignore_unknown_cats image_size)
    as [l|e1] eqn:El; simpl.
  - intros H; right; split; [reflexivity|].
    unfold to_arrays in H.
    destruct (mapM to_int32 (p_ids l)) as [ids|e2] eqn:Ei; simpl in H;
      [discriminate|].
    injection H as ->.
    destruct (conversion_error_object _ _ _ _ El Ei)
      as (obj & Hobj & Hraw & He).
    exists obj; split; [exact Hobj|]; split; [exact Hraw|].
    unfold to_int32 in He.
    destruct (np_int32 (label_id obj)); try discriminate;
      injection He as <-; auto.
  - intros H; injection H as ->; left.
    apply foldM_first_error in El as (pre & obj & post & st & E & Hp & Ho).
    exists pre, obj, post, st; split; [exact E|]; split; [exact Hp|].
    apply (parse_object_error_kind _ _ _ _ Ho).
Qed.

Lemma parse_loop_flag (objs : list Label) (l : Lists) :
  parse_loop objs classes false image_size = Ok l ->
  parse_loop objs classes true image_size = Ok l.
Proof.
  unfold parse_loop; generalize (@empty_parsed MT string).
  induction objs as [|obj objs IH]; intros st0; simpl; [auto|].
  intros H; apply bind_ok in H as [st1 [H1 H2]].
  assert (E : parse_object classes true image_size st0 obj = Ok st1).
  { revert H1; unfold parse_object.
    destruct (resolve_rle image_size obj) as [[r|]|e]; simpl; auto.
    unfold classify; destruct (in_classes _ _); auto; discriminate. }
  rewrite E; simpl; apply IH; exact H2.
Qed.

(** X5. The flag matters only for unknown categories: an input that parses
    with the flag false parses to the same lists with the flag true. *)
Theorem parse_objects_flag_irrelevant (objs : list Label) (st : Parsed) :
  parse_objects objs classes false image_size = Ok st ->
  parse_objects objs classes true image_size = Ok st.
Proof.
  unfold parse_objects; intros H; apply bind_ok in H as [l [Hl H]].
  rewrite (parse_loop_flag _ _ Hl); exact H.
Qed.

End ParseMore.

(** X4. With the flag true and an image size, the loop of [parse_objects]
    raises nothing, whatever the objects and the classes: the only
    exceptions of [parse_objects] are those of the conversion of the ids to
    int32, and there is none when the id of every object that becomes a
    detection is an int32. *)
Theorem parse_objects_never_raises {MT : MaskTypes} {EX : Externals}
  (classes : list string) (sz : ImageSize) (objs : list Label) :
  (exists l, parse_loop objs classes true (Some sz) = Ok l) /\
  (forall e,
     parse_objects objs classes true (Some sz) = Err e ->
     e = ValueError \/ e = OverflowError) /\
  ((forall obj,
      In obj objs -> raw_detection_of classes (Some sz) obj <> [] ->
      exists z, np_int32 (label_id obj) = Int32 z) ->
   exists st, parse_objects objs classes true (Some sz) = Ok st).
Proof.
  pose proof (parse_loop_is_ok classes true (Some sz) objs) as H.
  assert (Hall : forallb (object_parses classes true (Some sz)) objs = true).
  { apply forallb_forall; intros obj _; unfold object_parses, resolve_rle.
    destruct (rle obj); [apply orb_true_r|].
    destruct (poly2d obj); [apply orb_true_r | reflexivity]. }
  rewrite Hall in H.
  destruct (parse_loop objs classes true (Some sz)) as [l|e0] eqn:El;
    [clear H | discriminate].
  split; [exists l; reflexivity|].
  unfold parse_objects; rewrite El; simpl; unfold to_arrays.
  destruct (mapM to_int32 (p_ids l)) as [ids|e1] eqn:Ei; simpl.
  - split; [discriminate|]; intros _; eexists; reflexivity.
  - destruct (conversion_error_object _ _ _ _ _ _ El Ei)
      as (obj & Hobj & Hraw & He).
    split.
    + intros e H'; injection H' as <-; apply (to_int32_err _ _ He).
    + intros Hconv; destruct (Hconv obj Hobj Hraw) as [z Hz].
      unfold to_int32 in He; rewrite Hz in He; discriminate.
Qed.

(** ** The accumulators of a frame and of a video *)

Lemma nth_error_update_at {A : Type} (i j : nat) (f : A -> A) (xs : list A) :
  nth_error (update_at i f xs) j =
  if Nat.eqb j i then option_map f (nth_error xs j) else nth_error xs j.
Proof.
  revert i j; induction xs as [|x xs IH]; intros i j; simpl.
  - destruct j, i; simpl; try reflexivity.
    destruct (Nat.eqb j i); reflexivity.
  - destruct i as [|i]; destruct j as [|j]; simpl; try reflexivity.
    apply IH.
Qed.

Lemma pointwise_length {A : Type} (F : nat -> A -> A) (l l' : list A) :
  (forall j, nth_error l' j = option_map (F j) (nth_error l j)) ->
  length l' = length l.
Proof.
  intros H; apply Nat.le_antisymm.
  - apply nth_error_None; rewrite H.
    rewrite (proj2 (nth_error_None l (length l)) (Nat.le_refl _)).
    reflexivity.
  - apply nth_error_None.
    pose proof (H (length l')) as E.
    rewrite (proj2 (nth_error_None l' (length l')) (Nat.le_refl _)) in E.
    destruct (nth_error l (length l')); [discriminate | reflexivity].
Qed.

Lemma Forall_nth_error {A : Type} (P : A -> Prop) (l : list A) :
  (forall j a, nth_error l j = Some a -> P a) -> Forall P l.
Proof.
  intros H; apply Forall_forall; intros a Ha.
  apply In_nth_error in Ha as [j Hj]; apply (H j a Hj).
Qed.

Lemma In_select {A : Type} (x : A) (xs : list A) (mask : list bool) :
  In x (select xs mask) -> In x xs.
Proof.
  revert mask; induction xs as [|y xs IH]; intros [|b mask]; simpl;
    try contradiction.
  destruct b; simpl; [intros [H|H]; [left; exact H|]|intros H];
    right; apply (IH mask H).
Qed.

Lemma select_class_mask_absent {A : Type} (xs : list A) (labels : list nat)
  (i : nat) :
  ~ In i labels -> select xs (class_mask labels i) = [].
Proof.
  revert xs; induction labels as [|l labels IH]; intros xs H; simpl.
  - destruct xs; reflexivity.
  - destruct xs as [|x xs]; [reflexivity|].
    destruct (Nat.eqb i l) eqn:E.
    + apply Nat.eqb_eq in E; subst; exfalso; apply H; left; reflexivity.
    + apply IH; intros Hin; apply H; right; exact Hin.
Qed.

Section Accumulators.
Context {MT : MaskTypes} {EX : Externals}.

Lemma acc_class_calls (iou_thr ignore_iof_thr : Q) (gt pred : Parsed)
  (accs accs' : list MOTAccumulator) (i : nat) :
  acc_class iou_thr ignore_iof_thr gt pred accs i = Ok accs' ->
  forall j,
    nth_error accs' j =
    option_map
      (fun a => a ++ (if Nat.eqb j i
                      then class_calls iou_thr ignore_iof_thr gt pred i
                      else []))
      (nth_error accs j).
Proof.
  unfold acc_class, class_calls.
  destruct (class_update iou_thr ignore_iof_thr gt pred i) as [[c|]|e];
    simpl; try discriminate; intros H j; injection H as <-.
  - rewrite nth_error_update_at.
    destruct (Nat.eqb j i); destruct (nth_error accs j); simpl;
      try reflexivity.
    + destruct c; reflexivity.
    + rewrite app_nil_r; reflexivity.
  - destruct (Nat.eqb j i); destruct (nth_error accs j); simpl;
      try rewrite app_nil_r; reflexivity.
Qed.

Lemma acc_classes_calls (iou_thr ignore_iof_thr : Q) (gt pred : Parsed)
  (n : nat) :
  forall s accs accs',
    foldM (acc_class iou_thr ignore_iof_thr gt pred) (seq s n) accs
      = Ok accs' ->
    forall j,
      nth_error accs' j =
      option_map
        (fun a => a ++ (if Nat.leb s j && Nat.ltb j (s + n)
                        then class_calls iou_thr ignore_iof_thr gt pred j
                        else []))
        (nth_error accs j).
Proof.
  induction n as [|n IH]; intros s accs accs'; simpl.
  - intros H j; injection H as <-.
    replace (Nat.leb s j && Nat.ltb j (s + 0)) with false.
    + destruct (nth_error accs j); simpl; [rewrite app_nil_r|]; reflexivity.
    + symmetry; apply andb_false_iff.
      destruct (Nat.leb s j) eqn:E; [right | left; reflexivity].
      apply Nat.leb_le in E; apply Nat.ltb_ge; lia.
  - intros H j; apply bind_ok in H as [accs1 [H1 H2]].
    rewrite (IH _ _ _ H2 j), (acc_class_calls _ _ _ _ _ _ _ H1 j).
    destruct (nth_error accs j) as [a|]; cbn [option_map]; [|reflexivity].
    f_equal; rewrite <- app_assoc; f_equal.
    destruct (Nat.eqb j s) eqn:E.
    + apply Nat.eqb_eq in E; subst j.
      replace (Nat.leb (S s) s) with false
        by (symmetry; apply Nat.leb_gt; lia).
      replace (Nat.leb s s && Nat.ltb s (s + S n)) with true.
      * apply app_nil_r.
      * symmetry; apply andb_true_iff; split;
          [apply Nat.leb_le | apply Nat.ltb_lt]; lia.
    + apply Nat.eqb_neq in E; cbn [app].
      destruct (Nat.leb (S s) j) eqn:E1; destruct (Nat.leb s j) eqn:E2;
        destruct (Nat.ltb j (S s + n)) eqn:E3;
        destruct (Nat.ltb j (s + S n)) eqn:E4; simpl; try reflexivity;
        exfalso;
        repeat match goal with
        | H : Nat.leb _ _ = true |- _ => apply Nat.leb_le in H
        | H : Nat.leb _ _ = false |- _ => apply Nat.leb_gt in H
        | H : Nat.ltb _ _ = true |- _ => apply Nat.ltb_lt in H
        | H : Nat.ltb _ _ = false |- _ => apply Nat.ltb_ge in H
        end; lia.
Qed.

Lemma acc_frame_calls (classes : list string) (iou_thr ignore_iof_thr : Q)
  (ignore_unknown_cats : bool) (image_size : option ImageSize)
  (accs accs' : list MOTAccumulator) (fr : Frame * Frame) :
  acc_frame classes iou_thr ignore_iof_thr ignore_unknown_cats image_size
            accs fr = Ok accs' ->
  exists gt pred,
    parse_objects (labels_or_empty (fst fr)) classes ignore_unknown_cats
                  image_size = Ok gt /\
    parse_objects (labels_or_empty (snd fr)) classes ignore_unknown_cats
                  image_size = Ok pred /\
    length accs' = length accs /\
    forall j,
      nth_error accs' j =
      option_map
        (fun a => a ++ (if Nat.ltb j (length classes)
                        then class_calls iou_thr ignore_iof_thr gt pred j
                        else []))
        (nth_error accs j).
Proof.
  unfold acc_frame; simpl.
  destruct (negb _); [discriminate|].
  intros H; apply bind_ok in H as [gt [Hg H]].
  apply bind_ok in H as [pred [Hp H]].
  exists gt, pred; split; [exact Hg|]; split; [exact Hp|].
  pose proof (acc_classes_calls _ _ _ _ _ _ _ _ H) as Hj.
  split; [apply (pointwise_length _ _ _ Hj) | exact Hj].
Qed.

(** X6. A frame that is processed without exception appends to the
    accumulator of each class the update call of that class, if it makes one,
    and changes nothing else: accumulator [j] afterwards is accumulator [j]
    before followed by at most one call, which is the one computed from the
    parsed ground truth and the parsed predictions of the frame. *)
Theorem acc_frame_appends (classes : list string) (iou_thr ignore_iof_thr : Q)
  (ignore_unknown_cats : bool) (image_size : option ImageSize)
  (accs accs' : list MOTAccumulator) (fr : Frame * Frame) :
  acc_frame classes iou_thr ignore_iof_thr ignore_unknown_cats image_size
            accs fr = Ok accs' ->
  exists gt pred,
    parse_objects (labels_or_empty (fst fr)) classes ignore_unknown_cats
                  image_size = Ok gt /\
    parse_objects (labels_or_empty (snd fr)) classes ignore_unknown_cats
                  image_size = Ok pred /\
    length accs' = length accs /\
    forall j,
      nth_error accs' j =
      option_map
        (fun a => a ++ (if Nat.ltb j (length classes)
                        then class_calls iou_thr ignore_iof_thr gt pred j
                        else []))
        (nth_error accs j).
Proof.
  intros H; unfold acc_frame in H; simpl in H.
  destruct (negb _); [discriminate|].
  apply bind_ok in H as [gt [Hg H]].
  apply bind_ok in H as [pred [Hp H]].
  exists gt, pred; split; [exact Hg|]; split; [exact Hp|].
  pose proof (acc_classes_calls _ _ _ _ _ _ _ _ H) as Hj.
  split; [apply (pointwise_length _ _ _ Hj) | exact Hj].
Qed.

Lemma length_class_calls (iou_thr ignore_iof_thr : Q) (gt pred : Parsed)
  (j : nat) :
  length (class_calls iou_thr ignore_iof_thr gt pred j) <= 1.
Proof.
  unfold class_calls.
  destruct (class_update _ _ _ _ _) as [[c|]|e]; simpl; lia.
Qed.

Lemma foldM_invariant {A S : Type} (P : S -> Prop)
  (body : S -> A -> result S) (xs : list A) :
  (forall s x s', P s -> body s x = Ok s' -> P s') ->
  forall s s', P s -> foldM body xs s = Ok s' -> P s'.
Proof.
  intros Hbody; induction xs as [|x xs IH]; simpl; intros s s' Hs H.
  - injection H as <-; exact Hs.
  - apply bind_ok in H as [s1 [H1 H2]].
    apply (IH s1 s' (Hbody s x s1 Hs H1) H2).
Qed.

Lemma length_insert_frame (f : Frame) (fs : list Frame) :
  length (insert_frame f fs) = S (length fs).
Proof.
  induction fs as [|g fs IH]; simpl; [reflexivity|].
  destruct (Z.leb _ _); simpl; [reflexivity | rewrite IH; reflexivity].
Qed.

Lemma length_sorted (fs : list Frame) : length (sorted fs) = length fs.
Proof.
  induction fs as [|f fs IH]; simpl; [reflexivity|].
  rewrite length_insert_frame, IH; reflexivity.
Qed.

Lemma acc_frames_count (classes : list string) (iou_thr ignore_iof_thr : Q)
  (ignore_unknown_cats : bool) (image_size : option ImageSize)
  (frs : list (Frame * Frame)) :
  forall accs accs' k,
    foldM (acc_frame classes iou_thr ignore_iof_thr ignore_unknown_cats
                     image_size) frs accs = Ok accs' ->
    Forall (fun a => length a <= k) accs ->
    length accs' = length accs /\
    Forall (fun a => length a <= k + length frs) accs'.
Proof.
  induction frs as [|fr frs IH]; simpl; intros accs accs' k H Hk.
  - injection H as <-; split; [reflexivity|].
    rewrite Nat.add_0_r; exact Hk.
  - apply bind_ok in H as [accs1 [H1 H2]].
    destruct (acc_frame_calls _ _ _ _ _ _ _ _ H1)
      as (gt & pred & _ & _ & Hl & Hj).
    assert (Hk1 : Forall (fun a => length a <= S k) accs1).
    { apply Forall_nth_error; intros j a1 Ha1.
      rewrite Hj in Ha1.
      destruct (nth_error accs j) as [a|] eqn:Ea; [|discriminate].
      simpl in Ha1; injection Ha1 as <-.
      apply nth_error_In in Ea.
      pose proof (proj1 (Forall_forall _ _) Hk a Ea) as Hle; simpl in Hle.
      pose proof (length_class_calls iou_thr ignore_iof_thr gt pred j).
      rewrite length_app; destruct (Nat.ltb j (length classes)); simpl; lia. }
    destruct (IH accs1 accs' (S k) H2 Hk1) as [Hl' Hk'].
    split; [congruence|].
    replace (k + S (length frs)) with (S k + length frs) by lia; exact Hk'.
Qed.

(** X7. A video that is processed without exception yields one accumulator
    per class, and no accumulator holds more update calls than the video has
    frames. *)
Theorem acc_single_video_counts (gts results : list Frame)
  (classes : list string) (iou_thr ignore_iof_thr : Q)
  (ignore_unknown_cats : bool) (image_size : option ImageSize)
  (accs : list MOTAccumulator) :
  acc_single_video_mots gts results classes iou_thr ignore_iof_thr
                        ignore_unknown_cats image_size = Ok accs ->
  length accs = length classes /\
  Forall (fun a => length a <= length results) accs.
Proof.
  unfold acc_single_video_mots.
  destruct (negb _); [discriminate|].
  intros H.
  destruct (acc_frames_count _ _ _ _ _ _ _ _ 0 H) as [Hl Hk].
  { apply Forall_forall; intros a Ha; apply repeat_spec in Ha; subst.
    simpl; lia. }
  rewrite repeat_length in Hl; split; [exact Hl|].
  apply Forall_forall; intros a Ha.
  pose proof (proj1 (Forall_forall _ _) Hk a Ha) as Hle; simpl in Hle.
  rewrite length_combine, length_sorted in Hle; lia.
Qed.

(** *** The shape of what the accumulator receives *)

Lemma wf_select_columns (D : Matrix) (mask : list bool) :
  wf_matrix D -> wf_matrix (select_columns D mask).
Proof.
  intros [Hl Hr]; unfold wf_matrix, select_columns; simpl; split.
  - rewrite length_map; exact Hl.
  - apply Forall_forall; intros row Hrow.
    apply in_map_iff in Hrow as [row0 [<- Hrow0]].
    apply length_select_same.
    rewrite repeat_length; apply (proj1 (Forall_forall _ _) Hr row0 Hrow0).
Qed.

Lemma ignore_filter_wf (thr : Q) (D D' : Matrix) (preds gt_ignores : list RLE)
  (ids ids' : list Z) :
  ignore_filter thr D preds gt_ignores ids = Ok (ids', D') ->
  wf_matrix D -> length ids = ncols D ->
  wf_matrix D' /\ nrows D' = nrows D /\ ncols D' = length ids'.
Proof.
  unfold ignore_filter; destruct (_ && _).
  - intros H HD Hi; apply bind_ok in H as [valid [_ H]].
    injection H as <- <-; split; [apply wf_select_columns; exact HD|].
    split; [reflexivity|]; simpl.
    apply length_select_same; rewrite repeat_length; congruence.
  - intros H HD Hi; injection H as <- <-; auto.
Qed.

Lemma class_update_wf (iou_thr ignore_iof_thr : Q) (gt pred : Parsed)
  (i : nat) (c : UpdateCall) :
  length (p_rles gt) = length (p_ids gt) ->
  length (p_rles pred) = length (p_ids pred) ->
  class_update iou_thr ignore_iof_thr gt pred i = Ok (Some c) ->
  wf_call c.
Proof.
  intros Hg Hp; unfold class_update.
  destruct (_ && _); [discriminate|].
  intros H; apply bind_ok in H as [[ids' D'] [Hf H]]; simpl in H.
  destruct (negb _); [|discriminate].
  injection H as <-.
  pose proof (shape_build_distances iou_thr
                (select (p_rles gt) (class_mask (p_labels gt) i))
                (select (p_rles pred) (class_mask (p_labels pred) i))) as Hs.
  injection Hs as Hs1 Hs2.
  destruct (ignore_filter_wf _ _ _ _ _ _ _ Hf (wf_build_distances _ _ _))
    as (Hw & Hr & Hc).
  { rewrite Hs2; apply length_select_same; congruence. }
  unfold wf_call; simpl; split; [|split; assumption].
  rewrite Hr, Hs1; apply length_select_same; exact Hg.
Qed.

Lemma parse_same_length (classes : list string) (ignore_unknown_cats : bool)
  (image_size : option ImageSize) (objs : list Label) (st : Parsed) :
  parse_objects objs classes ignore_unknown_cats image_size = Ok st ->
  length (p_rles st) = length (p_ids st).
Proof.
  intros H; destruct (parse_detections _ _ _ _ _ H) as (Er & _ & Ei).
  simpl in Er, Ei; rewrite Er, Ei, !length_map; reflexivity.
Qed.

(** X8. Every update call in the accumulators of a video that is processed
    without exception is well formed: its matrix has one row per
    ground-truth id and one column per prediction id of the call, and every
    row of the matrix has that many entries. *)
Theorem acc_single_video_calls_wf (gts results : list Frame)
  (classes : list string) (iou_thr ignore_iof_thr : Q)
  (ignore_unknown_cats : bool) (image_size : option ImageSize)
  (accs : list MOTAccumulator) :
  acc_single_video_mots gts results classes iou_thr ignore_iof_thr
                        ignore_unknown_cats image_size = Ok accs ->
  Forall (Forall wf_call) accs.
Proof.
  unfold acc_single_video_mots.
  destruct (negb _); [discriminate|].
  apply (foldM_invariant (fun accs => Forall (Forall wf_call) accs)).
  - intros s fr s' Hs H.
    destruct (acc_frame_calls _ _ _ _ _ _ _ _ H)
      as (gt & pred & Hg & Hp & _ & Hj).
    apply Forall_nth_error; intros j a' Ha'.
    rewrite Hj in Ha'.
    destruct (@nth_error MOTAccumulator s j) as [a|] eqn:Ea;
      [|discriminate Ha'].
    simpl in Ha'; injection Ha' as <-.
    apply Forall_app; split.
    + apply (proj1 (Forall_forall _ _) Hs a (nth_error_In _ _ Ea)).
    + destruct (Nat.ltb j (length classes)); [|constructor].
      unfold class_calls.
      destruct (class_update iou_thr ignore_iof_thr gt pred j)
        as [[c|]|e] eqn:Ec; constructor; [|constructor].
      apply (class_update_wf _ _ _ _ _ _ (parse_same_length _ _ _ _ _ Hg)
               (parse_same_length _ _ _ _ _ Hp) Ec).
  - apply Forall_forall; intros a Ha; apply repeat_spec in Ha; subst.
    constructor.
Qed.

(** *** The costs that reach the accumulator *)

Lemma build_distances_cells (iou_thr : Q) (G P : list RLE)
  (row : list cell) (c : cell) :
  In row (cells (build_distances iou_thr G P)) -> In c row ->
  c = nan \/
  exists rp rg,
    In rp P /\ In rg G /\ c = threshold iou_thr (mask_iou rp rg false).
Proof.
  unfold build_distances.
  assert (Hnan : forall r k, In row (cells (full_nan r k)) -> In c row ->
                             c = nan).
  { intros r k H1 H2; simpl in H1; apply repeat_spec in H1; subst row.
    apply repeat_spec in H2; exact H2. }
  destruct (_ && _); [intros H1 H2; left; apply (Hnan _ _ H1 H2)|].
  destruct (_ && _); [intros H1 H2; left; apply (Hnan _ _ H1 H2)|].
  simpl; intros Hrow Hc; right.
  apply in_map_iff in Hrow as [row0 [<- Hrow0]].
  apply in_map_iff in Hc as [u [<- Hu]].
  unfold transpose in Hrow0; apply in_map_iff in Hrow0 as [j [<- Hj]].
  apply in_seq in Hj; simpl in Hj.
  apply in_map_iff in Hu as [irow [<- Hirow]].
  unfold iou in Hirow; apply in_map_iff in Hirow as [rp [<- Hrp]].
  set (l := map _ (combine G (repeat false (length G)))).
  assert (Hlen : j < length l)
    by (unfold l; rewrite length_map, length_combine, repeat_length; lia).
  pose proof (nth_In l 0%Q Hlen) as Hin.
  unfold l in Hin at 2; apply in_map_iff in Hin as [[rg b] [E Hgb]].
  pose proof (in_combine_l _ _ _ _ Hgb) as Hrg.
  apply in_combine_r, repeat_spec in Hgb; subst b; simpl in E.
  exists rp, rg; rewrite E; auto.
Qed.

(** X9. No cost above the double [1 - iou_thr] reaches an accumulator:
    every finite entry of the matrix of an update call is the double
    [1 - IoU] of a prediction and a ground-truth mask of the class, and it is
    at most the double [1 - iou_thr]; it is not negative when rounding is
    monotone and does not take 0 below 0 and the overlap function never
    exceeds 1. *)
Theorem class_update_cost_bounds (iou_thr ignore_iof_thr : Q)
  (gt pred : Parsed) (i : nat) (c : UpdateCall) (m n : nat) (q : Q) :
  class_update iou_thr ignore_iof_thr gt pred i = Ok (Some c) ->
  get (upd_distances c) m n = Some (Some q) ->
  (q <= fl (1 - iou_thr))%Q /\
  (exists rp rg,
     In rp (select (p_rles pred) (class_mask (p_labels pred) i)) /\
     In rg (select (p_rles gt) (class_mask (p_labels gt) i)) /\
     q = fl (1 - mask_iou rp rg false)%Q) /\
  ((forall a b, (a <= b)%Q -> (fl a <= fl b)%Q) -> (0 <= fl 0)%Q ->
   (forall rp rg, mask_iou rp rg false <= 1)%Q -> (0 <= q)%Q).
Proof.
  unfold class_update.
  destruct (_ && _); [discriminate|].
  intros H; apply bind_ok in H as [[ids' D'] [Hf H]]; simpl in H.
  destruct (negb _); [|discriminate].
  injection H as <-; simpl.
  set (D := build_distances iou_thr _ _) in Hf.
  intros Hget.
  assert (Hcell : exists row, In row (cells D) /\ In (Some q) row).
  { unfold get in Hget.
    destruct (nth_error (cells D') m) as [row'|] eqn:Er; [|discriminate].
    apply nth_error_In in Er, Hget.
    unfold ignore_filter in Hf; destruct (_ && _).
    - apply bind_ok in Hf as [valid [_ Hf]]; injection Hf as _ <-.
      simpl in Er; apply in_map_iff in Er as [row [<- Hrow]].
      exists row; split; [exact Hrow | apply (In_select _ _ _ Hget)].
    - injection Hf as _ <-; exists row'; auto. }
  destruct Hcell as [row [Hrow Hq]].
  destruct (build_distances_cells _ _ _ _ _ Hrow Hq)
    as [E|(rp & rg & Hrp & Hrg & E)]; [discriminate|].
  unfold threshold in E; cbv zeta in E.
  destruct (Qltb (fl (1 - iou_thr)) (fl (1 - mask_iou rp rg false))) eqn:Et;
    [discriminate|].
  injection E as ->; apply Qltb_ge in Et; split; [exact Et|].
  split; [exists rp, rg; auto|].
  intros Hmono H0 Hle; specialize (Hle rp rg).
  apply (Qle_trans _ (fl 0)); [exact H0|].
  apply Hmono; lra.
Qed.

End Accumulators.

(** ** Classes, thresholds *)

Lemma flat_map_nil {A B : Type} (f : A -> list B) (l : list A) :
  (forall x, In x l -> f x = []) -> flat_map f l = [].
Proof.
  induction l as [|x l IH]; simpl; intros H; [reflexivity|].
  rewrite (H x (or_introl eq_refl)), IH; [reflexivity|].
  intros y Hy; apply H; right; exact Hy.
Qed.

Lemma index_le (c : string) (cs : list string) (k : nat) :
  nth_error cs k = Some c -> index c cs <= k.
Proof.
  revert k; induction cs as [|x cs IH]; intros k; simpl.
  - destruct k; discriminate.
  - destruct (String.eqb c x) eqn:E; [lia|].
    destruct k as [|k]; simpl.
    + intros H; injection H as ->; rewrite String.eqb_refl in E.
      discriminate.
    + intros H; apply IH in H; lia.
Qed.

Section Classes.
Context {MT : MaskTypes} {EX : Externals}.

Lemma parse_labels_are_indices (classes : list string)
  (ignore_unknown_cats : bool) (image_size : option ImageSize)
  (objs : list Label) (st : Parsed) (l : nat) :
  parse_objects objs classes ignore_unknown_cats image_size = Ok st ->
  In l (p_labels st) ->
  exists c, in_classes c classes = true /\ l = index c classes.
Proof.
  intros H Hl; destruct (parse_detections _ _ _ _ _ H) as (_ & El & _).
  simpl in El; rewrite El in Hl.
  apply in_map_iff in Hl as [d [<- Hd]].
  apply in_flat_map in Hd as [obj [_ Hd]].
  destruct (detection_label _ _ obj d Hd) as [Ec E].
  exists (category obj); auto.
Qed.

Lemma class_update_absent (iou_thr ignore_iof_thr : Q) (gt pred : Parsed)
  (j : nat) :
  ~ In j (p_labels gt) -> ~ In j (p_labels pred) ->
  class_update iou_thr ignore_iof_thr gt pred j = Ok None.
Proof.
  intros Hg Hp; unfold class_update.
  rewrite (select_class_mask_absent (p_rles gt) _ _ Hg).
  rewrite (select_class_mask_absent (p_rles pred) _ _ Hp).
  reflexivity.
Qed.

(** X10. A class name that is repeated in the class list gets detections
    only at its first position, because labels are [classes.index(category)]:
    in a video that is processed without exception the accumulator at a
    later position of the name stays empty. *)
Theorem repeated_class_stays_empty (gts results : list Frame)
  (classes : list string) (iou_thr ignore_iof_thr : Q)
  (ignore_unknown_cats : bool) (image_size : option ImageSize)
  (accs : list MOTAccumulator) (c : string) (k j : nat) :
  nth_error classes k = Some c -> nth_error classes j = Some c -> k < j ->
  acc_single_video_mots gts results classes iou_thr ignore_iof_thr
                        ignore_unknown_cats image_size = Ok accs ->
  nth_error accs j = Some [].
Proof.
  intros Hk Hjc Hlt; unfold acc_single_video_mots.
  destruct (negb _); [discriminate|].
  assert (Hnot : forall objs st,
            parse_objects objs classes ignore_unknown_cats image_size
              = Ok st -> ~ In j (p_labels st)).
  { intros objs st Hp Hin.
    destruct (parse_labels_are_indices _ _ _ _ _ _ Hp Hin) as [c' [Hc' E]].
    pose proof (index_in_classes c' classes Hc') as Hn.
    rewrite <- E, Hjc in Hn; injection Hn as <-.
    pose proof (index_le c classes k Hk); lia. }
  apply (foldM_invariant (fun accs => nth_error accs j = Some [])).
  - intros s fr s' Hs H.
    destruct (acc_frame_calls _ _ _ _ _ _ _ _ H)
      as (gt & pred & Hg & Hp & _ & Hj).
    unfold MOTAccumulator in *; rewrite Hj, Hs; simpl.
    unfold class_calls.
    rewrite (class_update_absent _ _ _ _ _ (Hnot _ _ Hg) (Hnot _ _ Hp)).
    destruct (Nat.ltb j (length classes)); reflexivity.
  - apply nth_error_repeat, nth_error_Some; congruence.
Qed.

(** X11. When no ground-truth object of a frame is crowd or ignored, the
    frame has no ignore region and its outcome does not depend on
    [ignore_iof_thr]. *)
Theorem no_ignore_region_no_threshold (classes : list string)
  (iou_thr thr1 thr2 : Q) (ignore_unknown_cats : bool)
  (image_size : option ImageSize) (accs : list MOTAccumulator)
  (gt res : Frame) :
  (forall obj, In obj (labels_or_empty gt) ->
               check_crowd obj || check_ignored obj = false) ->
  acc_frame classes iou_thr thr1 ignore_unknown_cats image_size accs
            (gt, res) =
  acc_frame classes iou_thr thr2 ignore_unknown_cats image_size accs
            (gt, res).
Proof.
  intros Hno; unfold acc_frame; simpl.
  destruct (negb _); [reflexivity|].
  destruct (parse_objects (labels_or_empty gt) _ _ _) as [g|e] eqn:Eg;
    simpl; [|reflexivity].
  destruct (parse_objects (labels_or_empty res) _ _ _) as [p|e]; simpl;
    [|reflexivity].
  assert (Hign : p_ignore_rles g = []).
  { rewrite (parse_ignore_rles _ _ _ _ _ Eg); simpl.
    apply flat_map_nil; intros obj Hobj; unfold ignore_region_of.
    rewrite (Hno obj Hobj), andb_false_r; reflexivity. }
  apply foldM_ext; intros s i _.
  unfold acc_class, class_update, ignore_filter; rewrite Hign; reflexivity.
Qed.

Lemma existsb_Qltb_mono (thr1 thr2 : Q) (row : list Q) :
  (thr1 <= thr2)%Q ->
  existsb (Qltb thr2) row = true -> existsb (Qltb thr1) row = true.
Proof.
  intros Hle H; apply existsb_exists in H as [v [Hv Hlt]].
  apply existsb_exists; exists v; split; [exact Hv|].
  apply Qltb_lt in Hlt; apply Qltb_lt; lra.
Qed.

(** X12. Raising [ignore_iof_thr] never removes a prediction that survives
    the ignore filter at the lower threshold. *)
Theorem ignore_valid_inds_monotone (thr1 thr2 : Q) (distances : Matrix)
  (pred_rles_c gt_ignores : list RLE) (v1 v2 : list bool) (n : nat) :
  (thr1 <= thr2)%Q ->
  ignore_valid_inds thr1 distances pred_rles_c gt_ignores = Ok v1 ->
  ignore_valid_inds thr2 distances pred_rles_c gt_ignores = Ok v2 ->
  nth_error v1 n = Some true -> nth_error v2 n = Some true.
Proof.
  intros Hle; unfold ignore_valid_inds.
  destruct (foldM _ _ _) as [fps|e]; simpl; [|discriminate].
  intros H1 H2; injection H1 as <-; injection H2 as <-.
  rewrite !nth_error_valid_inds_of; unfold ignores_of.
  rewrite !nth_error_map.
  destruct (nth_error fps n) as [f|]; [|discriminate].
  destruct (nth_error (iou _ _ _) n) as [row|]; simpl; [|discriminate].
  intros H; injection H as H; f_equal.
  destruct f; simpl in *; [|reflexivity].
  destruct (existsb (Qltb thr2) row) eqn:E; [|reflexivity].
  rewrite (existsb_Qltb_mono _ _ _ Hle E) in H; discriminate.
Qed.

(** X13. Lowering [iou_thr] keeps every finite cost: an entry that is finite
    at the higher threshold is the same finite entry at the lower one
    (rounding to a double is monotone). *)
Theorem build_distances_monotone (thr1 thr2 : Q) (G P : list RLE)
  (g p : nat) (q : Q) :
  (forall a b, (a <= b)%Q -> (fl a <= fl b)%Q) ->
  (thr1 <= thr2)%Q ->
  get (build_distances thr2 G P) g p = Some (Some q) ->
  get (build_distances thr1 G P) g p = Some (Some q).
Proof.
  intros Hmono Hle.
  destruct G as [|g0 G]; [|destruct P as [|p0 P]].
  - intros H; exfalso.
    assert (E : cells (build_distances thr2 [] P) = [])
      by (unfold build_distances; destruct P; reflexivity).
    unfold get in H; rewrite E in H; destruct g; discriminate.
  - intros H; apply get_full_nan in H; discriminate.
  - rewrite !build_distances_nonempty by discriminate.
    unfold get; cbn [cells]; rewrite !nth_error_map.
    destruct (nth_error (transpose _ _ _) g) as [row|]; simpl;
      [|discriminate].
    rewrite !nth_error_map.
    destruct (nth_error row p) as [u|]; simpl; [|discriminate].
    intros H; injection H as H; f_equal.
    unfold threshold in H; cbv zeta in H.
    destruct (Qltb (fl (1 - thr2)) (fl (1 - u))) eqn:E; [discriminate|].
    injection H as <-; apply Qltb_ge in E.
    apply threshold_keep.
    apply (Qle_trans _ (fl (1 - thr2))); [exact E|].
    apply Hmono; lra.
Qed.

End Classes.

(** ** The order of the frames *)

Lemma NoDup_map_injective {A B : Type} (f : A -> B) (l : list A) (a b : A) :
  NoDup (map f l) -> In a l -> In b l -> f a = f b -> a = b.
Proof.
  induction l as [|x l IH]; simpl; [contradiction|].
  intros Hnd Ha Hb E; inversion Hnd as [|y ys Hnot Hnd']; subst.
  destruct Ha as [->|Ha]; destruct Hb as [->|Hb]; auto.
  - exfalso; apply Hnot; rewrite E; apply in_map; exact Hb.
  - exfalso; apply Hnot; rewrite <- E; apply in_map; exact Ha.
Qed.

Section FrameOrder.
Context {MT : MaskTypes} {EX : Externals}.

Lemma insert_frame_perm (f : Frame) (fs : list Frame) :
  Permutation (insert_frame f fs) (f :: fs).
Proof.
  induction fs as [|g fs IH]; simpl; [apply Permutation_refl|].
  destruct (Z.leb _ _); [apply Permutation_refl|].
  apply Permutation_trans with (g :: f :: fs);
    [apply perm_skip; exact IH | apply perm_swap].
Qed.

Lemma sorted_perm (fs : list Frame) : Permutation (sorted fs) fs.
Proof.
  induction fs as [|f fs IH]; simpl; [apply Permutation_refl|].
  apply Permutation_trans with (f :: sorted fs);
    [apply insert_frame_perm | apply perm_skip; exact IH].
Qed.

Lemma insert_frame_sorted (f : Frame) (fs : list Frame) :
  key_sorted fs -> key_sorted (insert_frame f fs).
Proof.
  unfold key_sorted; induction fs as [|g fs IH]; simpl; intros Hs.
  - repeat constructor.
  - apply StronglySorted_inv in Hs as [Hs Hg].
    destruct (Z.leb (get_frame_index f) (get_frame_index g)) eqn:E.
    + apply Z.leb_le in E; constructor;
        [constructor; assumption|].
      constructor; [exact E|].
      apply Forall_forall; intros x Hx.
      pose proof (proj1 (Forall_forall _ _) Hg x Hx); simpl in *; lia.
    + apply Z.leb_gt in E; constructor; [apply IH; exact Hs|].
      apply (Permutation_Forall (Permutation_sym (insert_frame_perm f fs))).
      constructor; [lia | exact Hg].
Qed.

Lemma sorted_key_sorted (fs : list Frame) : key_sorted (sorted fs).
Proof.
  induction fs as [|f fs IH]; simpl; [constructor|].
  apply insert_frame_sorted; exact IH.
Qed.

Lemma key_sorted_unique (l1 l2 : list Frame) :
  key_sorted l1 -> key_sorted l2 -> Permutation l1 l2 ->
  (forall a b, In a l1 -> In b l1 ->
               get_frame_index a = get_frame_index b -> a = b) ->
  l1 = l2.
Proof.
  unfold key_sorted; revert l2; induction l1 as [|a l1 IH]; intros l2 H1 H2 Hp
    Hinj.
  - symmetry; apply Permutation_nil; exact Hp.
  - destruct l2 as [|b l2];
      [apply Permutation_sym, Permutation_nil in Hp; discriminate|].
    apply StronglySorted_inv in H1 as [H1 Ha].
    apply StronglySorted_inv in H2 as [H2 Hb].
    assert (Hab : a = b).
    { assert (Hin_a : In a (b :: l2))
        by (apply (Permutation_in _ Hp); left; reflexivity).
      assert (Hin_b : In b (a :: l1))
        by (apply (Permutation_in _ (Permutation_sym Hp)); left;
            reflexivity).
      apply Hinj; [left; reflexivity | exact Hin_b |].
      apply Z.le_antisymm.
      - destruct Hin_b as [->|Hin_b]; [lia|].
        apply (proj1 (Forall_forall _ _) Ha b Hin_b).
      - destruct Hin_a as [->|Hin_a]; [lia|].
        apply (proj1 (Forall_forall _ _) Hb a Hin_a). }
    subst b; f_equal.
    apply (IH l2 H1 H2 (Permutation_cons_inv Hp)).
    intros x y Hx Hy; apply Hinj; right; assumption.
Qed.

Lemma sorted_of_permutation (fs fs' : list Frame) :
  Permutation fs fs' -> NoDup (map get_frame_index fs) ->
  sorted fs' = sorted fs.
Proof.
  intros Hp Hnd; apply key_sorted_unique; try apply sorted_key_sorted.
  - apply Permutation_trans with fs'; [apply sorted_perm|].
    apply Permutation_trans with fs;
      [apply Permutation_sym, Hp | apply Permutation_sym, sorted_perm].
  - intros a b Ha Hb.
    apply (NoDup_map_injective get_frame_index fs').
    + apply (Permutation_NoDup (Permutation_map _ Hp) Hnd).
    + apply (Permutation_in _ (sorted_perm fs') Ha).
    + apply (Permutation_in _ (sorted_perm fs') Hb).
Qed.

(** X14. The frames of a video may come in any order: when the frame
    indices of the ground truth are pairwise different, and so are those of
    the predictions, reordering the frames of either does not change the
    outcome. *)
Theorem acc_single_video_frame_order (gts gts' results results' : list Frame)
  (classes : list string) (iou_thr ignore_iof_thr : Q)
  (ignore_unknown_cats : bool) (image_size : option ImageSize) :
  Permutation gts gts' -> Permutation results results' ->
  NoDup (map get_frame_index gts) -> NoDup (map get_frame_index results) ->
  acc_single_video_mots gts' results' classes iou_thr ignore_iof_thr
                        ignore_unknown_cats image_size =
  acc_single_video_mots gts results classes iou_thr ignore_iof_thr
                        ignore_unknown_cats image_size.
Proof.
  intros Hg Hr Ng Nr; unfold acc_single_video_mots.
  rewrite (sorted_of_permutation _ _ Hg Ng), (sorted_of_permutation _ _ Hr Nr).
  rewrite <- (Permutation_length Hg), <- (Permutation_length Hr).
  reflexivity.
Qed.

Hypothesis label_ids_only :
  forall fs, map erase_ids (label_ids_to_int fs) = map erase_ids fs.

(** X15. A frame without frame index is ordered as index 0 but matches no
    frame that carries an index, not even index 0: a video whose
    ground-truth frames all lack the index and whose prediction frames all
    carry one raises the shape mismatch, whatever the frames contain. *)
Theorem unindexed_frames_mismatch (gts results : list Frame)
  (classes : list string) (iou_thr ignore_iof_thr : Q)
  (ignore_unknown_cats : bool) (image_size : option ImageSize) :
  gts <> [] -> length gts = length results ->
  Forall (fun f => frameIndex f = None) gts ->
  Forall (fun f => frameIndex f <> None) results ->
  acc_single_video_mots gts results classes iou_thr ignore_iof_thr
                        ignore_unknown_cats image_size
    = Err ShapeMismatchError.
Proof.
  intros Hne Hlen Hg Hr; unfold acc_single_video_mots.
  rewrite Hlen, Nat.eqb_refl; simpl.
  pose proof (frameIndex_label_ids label_ids_only (sorted gts)) as Hmap.
  pose proof (length_sorted gts) as Hlg.
  pose proof (length_sorted results) as Hlr.
  destruct (sorted gts) as [|g0 sg] eqn:Eg;
    [destruct gts; [congruence | discriminate]|].
  destruct (sorted results) as [|r0 sr] eqn:Er;
    [simpl in *; destruct gts; [congruence | lia]|].
  destruct (label_ids_to_int (g0 :: sg)) as [|l0 L]; [discriminate|].
  simpl in Hmap; injection Hmap as Hl0 _.
  assert (Hg0 : frameIndex g0 = None).
  { apply (proj1 (Forall_forall _ _) Hg), In_sorted.
    rewrite Eg; left; reflexivity. }
  assert (Hr0 : frameIndex r0 <> None).
  { apply (proj1 (Forall_forall _ _) Hr), In_sorted.
    rewrite Er; left; reflexivity. }
  simpl; unfold acc_frame at 1; simpl; rewrite Hl0, Hg0.
  destruct (frameIndex r0); [reflexivity | congruence].
Qed.

End FrameOrder.

(** ** The worker pool and the command line *)

Section Pool.
Context {MT : MaskTypes} {EX : Externals}.

(** The pool re-raises the exception of one of the failed tasks. *)
Hypothesis pool_picks_failure :
  forall e es, In (pool_pick (e :: es)) (e :: es).

(** X16. With more than one process the value of [iou_thr] has no effect:
    whatever it is, the evaluation succeeds exactly when the sequential one
    at the default threshold 0.5 succeeds, and then with the same result;
    and when it fails after the check of the numbers of videos, the
    exception is that of the accumulation of one of the videos at the
    threshold 0.5. *)
Theorem pool_branch_uses_default_thr (gts results : list Video)
  (config : Config) (iou_thr ignore_iof_thr : Q) (ignore_unknown_cats : bool)
  (nproc : Z) :
  (1 < nproc)%Z ->
  let pool :=
    evaluate_seg_track acc_single_video_mots_func gts results config iou_thr
                       ignore_iof_thr ignore_unknown_cats nproc in
  let sequential :=
    evaluate_seg_track acc_single_video_mots_func gts results config
                       (1 # 2)%Q ignore_iof_thr ignore_unknown_cats 1 in
  (forall r, pool = Ok r <-> sequential = Ok r) /\
  is_ok pool = is_ok sequential /\
  (forall e,
     pool = Err e ->
     (length gts <> length results /\ e = ShapeMismatchError) \/
     exists gr,
       In gr (combine gts results) /\
       acc_single_video_mots (fst gr) (snd gr)
         (leaf_category_names (categories config)) (1 # 2)%Q ignore_iof_thr
         ignore_unknown_cats (imageSize config) = Err e).
Proof.
  intros H pool sequential; subst pool sequential.
  apply Z.ltb_lt in H; unfold evaluate_seg_track.
  destruct (Nat.eqb (length gts) (length results)) eqn:En; simpl.
  - pose proof (video_accs_of_err pool_picks_failure gts results
                  (leaf_category_names (categories config)) iou_thr
                  ignore_iof_thr ignore_unknown_cats (imageSize config)
                  nproc) as Herr.
    unfold effective_thr in Herr; rewrite H in Herr.
    revert Herr; unfold video_accs_of; rewrite H; simpl.
    set (f := partial_acc_single_video _ _ _ _ _).
    set (g := fun gr : Video * Video => _).
    assert (Efg : mapM g (combine gts results) = mapM f (combine gts results))
      by (apply mapM_ext; intros [a b] _; reflexivity).
    rewrite Efg.
    pose proof (starmap_ok f (combine gts results)) as Hok.
    pose proof (starmap_is_ok f (combine gts results)) as His.
    destruct (starmap f (combine gts results)) as [accs|e];
      destruct (mapM f (combine gts results)) as [accs'|e']; simpl in *;
      try discriminate; intros Herr.
    + pose proof (proj1 (Hok accs) eq_refl) as E; injection E as <-.
      split; [tauto|]; split; [reflexivity | discriminate].
    + split; [intros r; split; discriminate|]; split; [reflexivity|].
      intros e0 He0; injection He0 as <-; right; apply Herr; reflexivity.
  - split; [tauto|]; split; [reflexivity|].
    intros e He; injection He as <-; left; split; [|reflexivity].
    apply Nat.eqb_neq; exact En.
Qed.

(** X17. With any non-empty value of [--ignore-unknown-cats], the value
    False included, [parse_objects] raises no unknown-category error: the
    exceptions left are the configuration error and those of the conversion
    of the ids to int32. *)
Theorem ignore_unknown_cats_arg_nonempty (s : string) (objs : list Label)
  (classes : list string) (image_size : option ImageSize) (e : exn) :
  s <> "" ->
  parse_objects objs classes (ignore_unknown_cats_arg (Some s)) image_size
    = Err e ->
  (forall c, e <> UnknownCategoryError c) /\
  (e = ConfigError \/ e = ValueError \/ e = OverflowError).
Proof.
  intros Hs.
  assert (E : ignore_unknown_cats_arg (Some s) = true).
  { unfold ignore_unknown_cats_arg, arg_bool.
    destruct (String.eqb s "") eqn:Es; [|reflexivity].
    apply String.eqb_eq in Es; contradiction. }
  rewrite E; intros H.
  assert (Hk : e = ConfigError \/ e = ValueError \/ e = OverflowError).
  { revert H; unfold parse_objects, parse_loop.
    destruct (foldM (parse_object classes true image_size) objs
                    empty_parsed) as [l|e1] eqn:El; simpl.
    - unfold to_arrays.
      destruct (mapM to_int32 (p_ids l)) as [ids|e2] eqn:Ei; simpl;
        [discriminate|].
      intros H; injection H as <-.
      apply mapM_err_in in Ei as [x [_ Hx]].
      right; apply (to_int32_err _ _ Hx).
    - intros H; injection H as <-.
      apply foldM_first_error in El as (pre & obj & post & st & _ & _ & Ho).
      apply parse_object_error_kind in Ho as [[-> _]|[_ [Hf _]]];
        [left; reflexivity | discriminate]. }
  split; [|exact Hk].
  intros c; destruct Hk as [->|[->| ->]]; discriminate.
Qed.

End Pool.

(** ** The further properties at the sample instance *)

Import Cases.

(** X1, at the sample ground-truth frame. *)
Lemma parse_objects_lengths_sample :
  length (p_rles gt_parsed) = length (p_labels gt_parsed) /\
  length (p_labels gt_parsed) = length (p_ids gt_parsed) /\
  Forall (fun l => l < length ["car"]) (p_labels gt_parsed).
Proof.
  apply (parse_objects_lengths ["car"] None false [gt_car; crowd_car]
           gt_parsed parse_gt_frame).
Defined.

(** X2, at the sample prediction frame. *)
Lemma parse_objects_detections_sample :
  p_rles pred_parsed =
    map (fun d => fst (fst d))
        (flat_map (detection_of ["car"] None)
                  [pred_car; pred_in_crowd; pred_alone]) /\
  p_labels pred_parsed =
    map (fun d => snd (fst d))
        (flat_map (detection_of ["car"] None)
                  [pred_car; pred_in_crowd; pred_alone]) /\
  p_ids pred_parsed =
    map (fun d => snd d)
        (flat_map (detection_of ["car"] None)
                  [pred_car; pred_in_crowd; pred_alone]).
Proof.
  apply (parse_objects_detections ["car"] None false
           [pred_car; pred_in_crowd; pred_alone] pred_parsed
           parse_pred_frame).
Defined.

Example parse_unknown_category :
  parse_objects [gt_car; dog_with_mask; poly_car] ["car"] false None
  = Err (UnknownCategoryError "dog").
Proof. reflexivity. Qed.

Example parse_id_not_a_number :
  parse_objects [gt_car; pred_named] ["car"] false None = Err ValueError.
Proof. reflexivity. Qed.

Example parse_id_too_large :
  parse_objects [gt_car; pred_huge] ["car"] false None = Err OverflowError.
Proof. reflexivity. Qed.

(** X3, at a list whose second object has an unknown category and whose
    third has a polygon only. *)
Lemma parse_objects_first_error_sample :
  (exists pre obj post l,
     [gt_car; dog_with_mask; poly_car] = pre ++ obj :: post /\
     parse_loop pre ["car"] false None = Ok l /\
     ((UnknownCategoryError "dog" = ConfigError /\ rle obj = None
       /\ poly2d obj <> None /\ @None ImageSize = None) \/
      (UnknownCategoryError "dog" = UnknownCategoryError (category obj)
       /\ false = false /\ in_classes (category obj) ["car"] = false))) \/
  (is_ok (parse_loop [gt_car; dog_with_mask; poly_car] ["car"] false None)
     = true /\
   exists obj,
     In obj [gt_car; dog_with_mask; poly_car] /\
     raw_detection_of ["car"] None obj <> [] /\
     ((UnknownCategoryError "dog" = ValueError
       /\ np_int32 (label_id obj) = NotAnInteger) \/
      (UnknownCategoryError "dog" = OverflowError
       /\ np_int32 (label_id obj) = OutOfRange))).
Proof.
  apply (parse_objects_first_error ["car"] None false
           [gt_car; dog_with_mask; poly_car] (UnknownCategoryError "dog")
           parse_unknown_category).
Defined.

(** X4, at a list with an object of unknown category and a polygon, with an
    image size. *)
Lemma parse_objects_never_raises_sample :
  (forall obj,
     In obj mixed_objects -> raw_detection_of ["car"] (Some canvas) obj <> [] ->
     exists z, np_int32 (label_id obj) = Int32 z) /\
  exists st, parse_objects mixed_objects ["car"] true (Some canvas) = Ok st.
Proof.
  assert (H : forall obj,
            In obj mixed_objects ->
            raw_detection_of ["car"] (Some canvas) obj <> [] ->
            exists z, np_int32 (label_id obj) = Int32 z).
  { intros obj [<-|[<-|[<-|[]]]] _; eexists; reflexivity. }
  split; [exact H|].
  apply (proj2 (proj2 (parse_objects_never_raises ["car"] canvas
                         mixed_objects)) H).
Defined.

(** X5, at the sample ground-truth frame. *)
Lemma parse_objects_flag_irrelevant_sample :
  parse_objects [gt_car; crowd_car] ["car"] true None = Ok gt_parsed.
Proof.
  apply (parse_objects_flag_irrelevant ["car"] None [gt_car; crowd_car]
           gt_parsed parse_gt_frame).
Defined.

Example acc_frame_sample :
  acc_frame ["car"] (1 # 2)%Q (1 # 2)%Q false None [[]] sample_frame
  = Ok [[frame_call]].
Proof. vm_compute; reflexivity. Qed.

(** X6, at the sample frame. *)
Lemma acc_frame_appends_sample :
  exists gt pred,
    parse_objects (labels_or_empty (fst sample_frame)) ["car"] false None
      = Ok gt /\
    parse_objects (labels_or_empty (snd sample_frame)) ["car"] false None
      = Ok pred /\
    length [[frame_call]] = length [@nil UpdateCall] /\
    forall j,
      nth_error [[frame_call]] j =
      option_map
        (fun a => a ++ (if Nat.ltb j (length ["car"])
                        then class_calls (1 # 2)%Q (1 # 2)%Q gt pred j
                        else []))
        (nth_error [[]] j).
Proof.
  apply (acc_frame_appends ["car"] (1 # 2)%Q (1 # 2)%Q false None [[]]
           [[frame_call]] sample_frame acc_frame_sample).
Defined.

Example acc_single_video_sample :
  acc_single_video_mots car_gts car_results ["car"] (1 # 2)%Q (1 # 2)%Q
                        false None = Ok [[car_call]].
Proof. vm_compute; reflexivity. Qed.

(** X7, at the one-car video. *)
Lemma acc_single_video_counts_sample :
  length [[car_call]] = length ["car"] /\
  Forall (fun a => length a <= length car_results) [[car_call]].
Proof.
  apply (acc_single_video_counts car_gts car_results ["car"] (1 # 2)%Q
           (1 # 2)%Q false None [[car_call]] acc_single_video_sample).
Defined.

(** X8, at the one-car video. *)
Lemma acc_single_video_calls_wf_sample :
  Forall (Forall wf_call) [[car_call]].
Proof.
  apply (acc_single_video_calls_wf car_gts car_results ["car"] (1 # 2)%Q
           (1 # 2)%Q false None [[car_call]] acc_single_video_sample).
Defined.

Example class_update_sample :
  class_update (1 # 2)%Q (1 # 2)%Q gt_parsed pred_parsed 0
  = Ok (Some frame_call).
Proof. vm_compute; reflexivity. Qed.

(** X9, at the matched pair of the sample frame. *)
Lemma class_update_cost_bounds_sample :
  (1 - (8 # 10) <= fl (1 - (1 # 2)))%Q.
Proof.
  exact (proj1 (class_update_cost_bounds (1 # 2)%Q (1 # 2)%Q gt_parsed
                  pred_parsed 0 frame_call 0 0 (1 - (8 # 10))%Q
                  class_update_sample eq_refl)).
Defined.

Example acc_single_video_repeated_class :
  acc_single_video_mots car_gts car_results ["car"; "car"] (1 # 2)%Q
                        (1 # 2)%Q false None = Ok [[car_call]; []].
Proof. vm_compute; reflexivity. Qed.

(** X10, at the one-car video with the class list [car; car]. *)
Lemma repeated_class_stays_empty_sample :
  nth_error [[car_call]; []] 1 = Some [].
Proof.
  apply (repeated_class_stays_empty car_gts car_results ["car"; "car"]
           (1 # 2)%Q (1 # 2)%Q false None [[car_call]; []] "car" 0 1
           eq_refl eq_refl (Nat.lt_0_1) acc_single_video_repeated_class).
Defined.

(** X11, at a frame whose ground truth is one car. *)
Lemma no_ignore_region_no_threshold_sample :
  acc_frame ["car"] (1 # 2)%Q (1 # 2)%Q false None [[]]
            (frame 0 [gt_car], frame 0 [pred_car; pred_alone]) =
  acc_frame ["car"] (1 # 2)%Q (9 # 10)%Q false None [[]]
            (frame 0 [gt_car], frame 0 [pred_car; pred_alone]).
Proof.
  apply (no_ignore_region_no_threshold ["car"] (1 # 2)%Q (1 # 2)%Q
           (9 # 10)%Q false None [[]] (frame 0 [gt_car])
           (frame 0 [pred_car; pred_alone])).
  intros o [<-|[]]; reflexivity.
Defined.

(** X12, at the sample frame: the prediction elsewhere survives at the
    threshold 0.5 and at the threshold 1. *)
Lemma ignore_valid_inds_monotone_sample :
  nth_error [true; true; true] 2 = Some true.
Proof.
  apply (ignore_valid_inds_monotone (1 # 2)%Q 1%Q
           (build_distances (1 # 2)%Q car_masks pred_masks)
           pred_masks crowd_masks
           [true; false; true] [true; true; true] 2).
  - discriminate.
  - vm_compute; reflexivity.
  - vm_compute; reflexivity.
  - reflexivity.
Defined.

(** X13, at the sample masks: the cost 0.2 is finite at the threshold 0.7
    and at the threshold 0.5. *)
Lemma build_distances_monotone_sample :
  get (build_distances (1 # 2)%Q [seq 0 10] [seq 0 8]) 0 0
  = Some (Some (1 - (8 # 10))%Q).
Proof.
  apply (build_distances_monotone (1 # 2)%Q (7 # 10)%Q car_masks
           car_pred_masks 0 0 (1 - (8 # 10))%Q).
  - intros a b H; exact H.
  - discriminate.
  - vm_compute; reflexivity.
Defined.

(** X14, at a video of two frames given in both orders. *)
Lemma acc_single_video_frame_order_sample :
  acc_single_video_mots two_gts_swapped two_results_swapped ["car"]
                        (1 # 2)%Q (1 # 2)%Q false None =
  acc_single_video_mots two_gts two_results ["car"]
                        (1 # 2)%Q (1 # 2)%Q false None.
Proof.
  apply (acc_single_video_frame_order two_gts two_gts_swapped two_results
           two_results_swapped).
  - apply perm_swap.
  - apply perm_swap.
  - constructor; [simpl; intros [H|[]]; discriminate|].
    constructor; [simpl; tauto | constructor].
  - constructor; [simpl; intros [H|[]]; discriminate|].
    constructor; [simpl; tauto | constructor].
Defined.

(** X15, at a ground-truth frame without index against a prediction frame
    with index 0. *)
Lemma unindexed_frames_mismatch_sample :
  acc_single_video_mots unindexed_gts car_results ["car"] (1 # 2)%Q
                        (1 # 2)%Q false None = Err ShapeMismatchError.
Proof.
  apply (unindexed_frames_mismatch sample_label_ids_only unindexed_gts
           car_results).
  - discriminate.
  - reflexivity.
  - constructor; [reflexivity | constructor].
  - constructor; [discriminate | constructor].
Defined.

(** X16, at the one-car video with two processes and [iou_thr = 0.9]. *)
Lemma pool_branch_uses_default_thr_sample :
  evaluate_seg_track acc_single_video_mots_func one_car_gts one_car_results
                     config (9 # 10)%Q (1 # 2)%Q false 2 =
  evaluate_seg_track acc_single_video_mots_func one_car_gts one_car_results
                     config (1 # 2)%Q (1 # 2)%Q false 1.
Proof.
  pose proof (pool_branch_uses_default_thr sample_pool_picks_failure
                one_car_gts one_car_results config
                (9 # 10)%Q (1 # 2)%Q false 2 eq_refl) as H.
  cbv zeta in H; destruct H as (H & _ & _).
  apply (proj2 (H _)); vm_compute; reflexivity.
Defined.

Example parse_polygon_without_size :
  parse_objects [dog_with_mask; poly_car] ["car"]
                (ignore_unknown_cats_arg (Some "False")) None
  = Err ConfigError.
Proof. reflexivity. Qed.

(** X17, at the value False: the object of unknown category is passed over
    and the polygon without image size raises the configuration error. *)
Lemma ignore_unknown_cats_arg_nonempty_sample :
  "False" <> "" /\
  (forall c, ConfigError <> UnknownCategoryError c) /\
  (ConfigError = ConfigError \/ ConfigError = ValueError
   \/ ConfigError = OverflowError).
Proof.
  assert (H : "False" <> "") by discriminate.
  split; [exact H|].
  apply (ignore_unknown_cats_arg_nonempty "False" [dog_with_mask; poly_car]
           ["car"] None ConfigError H parse_polygon_without_size).
Defined.
